(** * LED patching tool: the gap-filling engine of [utils/patch_leds_cli.py]

    A shallow embedding of the dictionary-based interpolation loop and the
    properties its specification states about it.

    - LED ids are Python integers: [Z].
    - Coordinates are Python floats: IEEE 754 binary64, [PrimFloat.float].
    - The [leds] dictionary is a finite map [gmap Z led]; the code only ever
      reads its key set through order-insensitive operations ([set], [max],
      [min], [len]), so insertion order is not part of the model.
    - Exceptions ([KeyError], [ZeroDivisionError], [OverflowError]) are an
      explicit outcome of every function that can raise. *)

From Stdlib Require Import ZArith Floats.
From stdpp Require Import gmap sorting list.

Local Open Scope Z_scope.

(** ** Data model *)

(** One value of the [leds] dictionary: the inner dictionary with the keys
    ['x'], ['y'], ['z'], ['xn'], ['yn'], ['zn'], ['error']. *)
Record led : Type := Led {
  led_x : float;
  led_y : float;
  led_z : float;
  led_xn : float;
  led_yn : float;
  led_zn : float;
  led_error : float
}.

(** One row handed out by [csv.DictReader], with the numeric conversions of
    [int] and [float] already applied.  The columns read through
    [row.get(_, 0.0)] may be absent. *)
Record csv_row : Type := CsvRow {
  row_index : Z;
  row_x : float;
  row_y : float;
  row_z : float;
  row_xn : option float;
  row_yn : option float;
  row_zn : option float;
  row_error : option float
}.

(** Python exceptions that the core can raise. *)
Inductive py_exn : Type :=
| KeyError (key : Z)
| ZeroDivisionError
| OverflowError.

(** Outcome of a computation: a value, a raised exception, or a loop that
    was cut off by the fuel of the model. *)
Inductive result (A : Type) : Type :=
| Ok (a : A)
| Raise (e : py_exn)
| OutOfFuel.
Arguments Ok {A} a.
Arguments Raise {A} e.
Arguments OutOfFuel {A}.

Definition bind {A B : Type} (r : result A) (k : A → result B) : result B :=
  match r with
  | Ok a => k a
  | Raise e => Raise e
  | OutOfFuel => OutOfFuel
  end.

Notation "x ←r c ; k" := (bind c (λ x, k))
  (at level 20, c at level 100, k at level 200, right associativity,
   format "x  ←r  c ;  '/' k").

(** Lines printed by [patch_leds], in order. *)
Inductive message : Type :=
| MsgLoaded (size : nat)
| MsgTarget (total_leds : Z)
| MsgCouldNotPatch (still_missing : nat)
| MsgIteration (iteration patched : Z) (size : nat) (total_leds : Z)
| MsgSuccess
| MsgOnlyPatched (size : nat) (total_leds : Z).

(** How the [while] loop of [patch_leds] was left. *)
Inductive loop_exit : Type :=
| ExitSize        (* [len(leds) < total_leds] is false *)
| ExitCap         (* [iteration < max_iterations] is false *)
| BreakNoMissing  (* [if not missing_ids: break] *)
| BreakStalled.   (* [if patched_this_iteration == 0: ... break] *)

(** ** Numbers *)

(** [float(0.0)], [1] promoted to float. *)
Definition f0 : float := 0%float.
Definition f1 : float := 1%float.

(** An integer as an exact (unrounded) binary number. *)
Definition Z2SF (n : Z) : spec_float :=
  match n with
  | Z0 => S754_zero false
  | Zpos p => S754_finite false p 0
  | Zneg p => S754_finite true p 0
  end.

(** The correctly rounded binary64 quotient of two integers. *)
Definition int_quotient_SF (a b : Z) : spec_float :=
  SFdiv prec emax (Z2SF a) (Z2SF b).

(** Python's [a / b] on two [int]s: true division, rounded once to the
    nearest binary64 (ties to even). *)
Definition int_truediv (a b : Z) : result float :=
  if b =? 0 then Raise ZeroDivisionError
  else match int_quotient_SF a b with
       | S754_infinity _ => Raise OverflowError
       | q => Ok (SF2Prim q)
       end.

(** ** The functions of the script *)

(** [leds.keys()] *)
Definition keys (leds : gmap Z led) : list Z := (map_to_list leds).*1.

(** [len(leds)] *)
Definition len (leds : gmap Z led) : Z := Z.of_nat (size leds).

(** [range(n)] *)
Definition range (n : Z) : list Z := seqZ 0 n.

(** [max(l)] and [min(l)] on a list already known to be non-empty. *)
Definition max_from (id0 : Z) (ids : list Z) : Z := foldl Z.max id0 ids.
Definition min_from (id0 : Z) (ids : list Z) : Z := foldl Z.min id0 ids.

Definition row_to_led (row : csv_row) : led :=
  {| led_x := row_x row;
     led_y := row_y row;
     led_z := row_z row;
     led_xn := default f0 (row_xn row);
     led_yn := default f0 (row_yn row);
     led_zn := default f0 (row_zn row);
     led_error := default f0 (row_error row) |}.

(** [load_leds_from_csv]: the rows are stored one after the other, a later
    row with the same index replacing an earlier one. *)
Definition load_leds_from_csv (rows : list csv_row) : gmap Z led :=
  foldl (λ leds row, <[row_index row := row_to_led row]> leds) ∅ rows.

(** [find_missing_ids] *)
Definition find_missing_ids (leds : gmap Z led) (total_leds : Z) : list Z :=
  let existing_ids : gset Z := list_to_set (keys leds) in
  let all_ids : gset Z := list_to_set (range total_leds) in
  merge_sort Z.le (elements (all_ids ∖ existing_ids)).

(** [find_nearest_prev_led] *)
Definition find_nearest_prev_led (leds : gmap Z led) (led_id : Z) : option Z :=
  let prev_ids := filter (λ id, id < led_id) (keys leds) in
  match prev_ids with
  | [] => None
  | id0 :: ids => Some (max_from id0 ids)
  end.

(** [find_nearest_next_led] *)
Definition find_nearest_next_led (leds : gmap Z led) (led_id : Z) : option Z :=
  let next_ids := filter (λ id, id > led_id) (keys leds) in
  match next_ids with
  | [] => None
  | id0 :: ids => Some (min_from id0 ids)
  end.

(** [leds[k]] *)
Definition getitem (leds : gmap Z led) (k : Z) : result led :=
  match leds !! k with
  | Some v => Ok v
  | None => Raise (KeyError k)
  end.

(** [a * (1 - fraction) + b * fraction] *)
Definition lerp (a b fraction : float) : float :=
  (a * (f1 - fraction) + b * fraction)%float.

(** The dictionary literal [interpolated] of [interpolate_led]. *)
Definition interpolated (prev_led next_led : led) (fraction : float) : led :=
  {| led_x := lerp (led_x prev_led) (led_x next_led) fraction;
     led_y := lerp (led_y prev_led) (led_y next_led) fraction;
     led_z := lerp (led_z prev_led) (led_z next_led) fraction;
     led_xn := f0;
     led_yn := f0;
     led_zn := f0;
     led_error := f0 |}.

(** [interpolate_led] *)
Definition interpolate_led (leds : gmap Z led) (led_id prev_id next_id : Z)
  : result led :=
  prev_led ←r getitem leds prev_id;
  next_led ←r getitem leds next_id;
  let total_gap := next_id - prev_id in
  fraction ←r int_truediv (led_id - prev_id) total_gap;
  Ok (interpolated prev_led next_led fraction).

(** The body of [for led_id in missing_ids], on the pair of the shared
    dictionary and [patched_this_iteration]. *)
Definition patch_one (leds : gmap Z led) (patched : Z) (led_id : Z)
  : result (gmap Z led * Z) :=
  let prev_id := find_nearest_prev_led leds led_id in
  let next_id := find_nearest_next_led leds led_id in
  match prev_id, next_id with
  | Some prev_id, Some next_id =>
      v ←r interpolate_led leds led_id prev_id next_id;
      Ok (<[led_id := v]> leds, patched + 1)
  | _, _ => Ok (leds, patched)
  end.

(** [for led_id in missing_ids: ...] *)
Fixpoint for_missing (missing_ids : list Z) (leds : gmap Z led) (patched : Z)
  : result (gmap Z led * Z) :=
  match missing_ids with
  | [] => Ok (leds, patched)
  | led_id :: rest =>
      st ←r patch_one leds patched led_id;
      for_missing rest st.1 st.2
  end.

(** What the loop leaves behind. *)
Record patch_state : Type := PatchState {
  st_leds : gmap Z led;
  st_iteration : Z;
  st_log : list message;
  st_exit : loop_exit
}.

(** The [while] loop of [patch_leds].  [fuel] bounds the number of times the
    loop body is entered in the model; the loop's own bound is the test
    [iteration < max_iterations]. *)
Fixpoint patch_loop (fuel : nat) (total_leds max_iterations : Z)
    (iteration : Z) (leds : gmap Z led) (log : list message)
  : result patch_state :=
  if len leds <? total_leds then
    if iteration <? max_iterations then
      match fuel with
      | O => OutOfFuel
      | S fuel' =>
          let iteration := iteration + 1 in
          let missing_ids := find_missing_ids leds total_leds in
          match missing_ids with
          | [] => Ok (PatchState leds iteration log BreakNoMissing)
          | _ :: _ =>
              st ←r for_missing missing_ids leds 0;
              let leds := st.1 in
              let patched_this_iteration := st.2 in
              if patched_this_iteration =? 0 then
                Ok (PatchState leds iteration
                      (log ++ [MsgCouldNotPatch (length missing_ids)])
                      BreakStalled)
              else
                patch_loop fuel' total_leds max_iterations iteration leds
                  (log ++ [MsgIteration iteration patched_this_iteration
                             (size leds) total_leds])
          end
      end
    else Ok (PatchState leds iteration log ExitCap)
  else Ok (PatchState leds iteration log ExitSize).

(** [patch_leds], from the rows of the input file on. *)
Definition patch_leds (rows : list csv_row) (total_leds max_iterations : Z)
  : result patch_state :=
  let leds := load_leds_from_csv rows in
  let log := [MsgLoaded (size leds); MsgTarget total_leds] in
  st ←r patch_loop (S (Z.to_nat max_iterations)) total_leds max_iterations
          0 leds log;
  let final :=
    if len (st_leds st) =? total_leds then MsgSuccess
    else MsgOnlyPatched (size (st_leds st)) total_leds in
  Ok (PatchState (st_leds st) (st_iteration st) (st_log st ++ [final])
        (st_exit st)).

(** The default of the [max_iterations] parameter. *)
Definition default_max_iterations : Z := 1000.

(** ** Writing the dictionary back *)

(** The dictionary handed to [writer.writerow] for one LED: all eight
    columns are written. *)
Definition led_to_row (led_id : Z) (l : led) : csv_row :=
  {| row_index := led_id;
     row_x := led_x l;
     row_y := led_y l;
     row_z := led_z l;
     row_xn := Some (led_xn l);
     row_yn := Some (led_yn l);
     row_zn := Some (led_zn l);
     row_error := Some (led_error l) |}.

(** [for led_id in ...: led = leds[led_id]; writer.writerow(...)] *)
Fixpoint write_rows (leds : gmap Z led) (ids : list Z)
  : result (list csv_row) :=
  match ids with
  | [] => Ok []
  | led_id :: rest =>
      l ←r getitem leds led_id;
      rows ←r write_rows leds rest;
      Ok (led_to_row led_id l :: rows)
  end.

(** [save_leds_to_csv]: the rows written under the header, in the order
    written.  As for [load_leds_from_csv] the text of the cells is not
    modelled: a cell holds the number whose [str] is written. *)
Definition save_leds_to_csv (leds : gmap Z led) : result (list csv_row) :=
  write_rows leds (merge_sort Z.le (keys leds)).

(** The two calls of [main] that touch the data: [patch_leds] with the
    default [max_iterations], then [save_leds_to_csv] on what it returns;
    from the rows of the input file to the rows of the output file. *)
Definition patch_and_save (rows : list csv_row) (total_leds : Z)
  : result (list csv_row) :=
  patched_leds ←r patch_leds rows total_leds default_max_iterations;
  save_leds_to_csv (st_leds patched_leds).

(** Every optional column of the row is filled in. *)
Definition full_row (row : csv_row) : Prop :=
  is_Some (row_xn row) ∧ is_Some (row_yn row) ∧
  is_Some (row_zn row) ∧ is_Some (row_error row).

(** The marks of a record made by [interpolate_led]. *)
Definition synthetic (l : led) : Prop :=
  led_xn l = f0 ∧ led_yn l = f0 ∧ led_zn l = f0 ∧ led_error l = f0.

(** ** Examples *)

Definition mk_row (i : Z) (x y z : float) : csv_row :=
  CsvRow i x y z None None None None.

(** (0,0,0) at id 0 and (10,0,0) at id 5. *)
Definition rows_0_5 : list csv_row :=
  [mk_row 0 0 0 0; mk_row 5 10 0 0].

(** The same two points, [2^60] ids apart. *)
Definition rows_far_apart : list csv_row :=
  [mk_row 0 0 0 0; mk_row (2 ^ 60) 10 0 0].

(** The ids 2 and 4 only. *)
Definition rows_2_4 : list csv_row :=
  [mk_row 2 1 1 1; mk_row 4 3 3 3].

(** Two rows with all eight columns. *)
Definition rows_full : list csv_row :=
  [CsvRow 0 1 2 3 (Some 0) (Some 0) (Some 1) (Some 0.5);
   CsvRow 1 4 5 6 (Some 1) (Some 0) (Some 0) (Some 0.25)]%float.

(** A single LED. *)
Definition rows_3 : list csv_row := [mk_row 3 1 2 3].

(** The ids 5 and 7 only. *)
Definition rows_5_7 : list csv_row :=
  [mk_row 5 0 0 0; mk_row 7 0 0 0].


(** ** Vocabulary of the specification *)

(** [k] is a present key of the map. *)
Definition present (leds : gmap Z led) (k : Z) : Prop := is_Some (leds !! k).

(** Some present key lies strictly below (above) [id]. *)
Definition has_below (leds : gmap Z led) (id : Z) : Prop :=
  ∃ k, present leds k ∧ k < id.
Definition has_above (leds : gmap Z led) (id : Z) : Prop :=
  ∃ k, present leds k ∧ id < k.

(** A gap: an id of [[0, total_count)] without a record. *)
Definition gap (leds : gmap Z led) (total_count id : Z) : Prop :=
  0 ≤ id < total_count ∧ leds !! id = None.

(** An id with a present key on either side. *)
Definition bounded_both (leds : gmap Z led) (id : Z) : Prop :=
  has_below leds id ∧ has_above leds id.

(** An id smaller than every present key, or larger than every present key. *)
Definition outside_span (leds : gmap Z led) (id : Z) : Prop :=
  Forall (λ k, id < k) (keys leds) ∨ Forall (λ k, k < id) (keys leds).

Global Instance outside_span_dec leds id : Decision (outside_span leds id).
Proof. unfold outside_span. apply _. Defined.

(** [k] is the maximum present key strictly less than [id]. *)
Definition max_below (leds : gmap Z led) (id k : Z) : Prop :=
  present leds k ∧ k < id ∧ ∀ k', present leds k' → k' < id → k' ≤ k.

(** [k] is the minimum present key strictly greater than [id]. *)
Definition min_above (leds : gmap Z led) (id k : Z) : Prop :=
  present leds k ∧ id < k ∧ ∀ k', present leds k' → id < k' → k ≤ k'.

(** The same two-sided condition, phrased on the key list so that it can be
    decided. *)
Definition interior (leds : gmap Z led) (id : Z) : Prop :=
  Exists (λ k, k < id) (keys leds) ∧ Exists (λ k, id < k) (keys leds).

Global Instance interior_dec leds id : Decision (interior leds id).
Proof. unfold interior. apply _. Defined.

(** The interior gaps of the map, in ascending order. *)
Definition interior_gaps (leds : gmap Z led) (total_count : Z) : list Z :=
  filter (interior leds) (find_missing_ids leds total_count).

(** A state at the head of the [while] loop: the iteration counter and the
    dictionary. *)
Definition loop_state : Type := Z * gmap Z led.

(** One productive trip through the loop body: the loop test holds, ids are
    missing, and the pass over them patches at least one. *)
Inductive iteration_step (total_leds max_iterations : Z)
  : loop_state → loop_state → Prop :=
| iteration_step_intro iteration leds leds' patched :
    len leds < total_leds →
    iteration < max_iterations →
    find_missing_ids leds total_leds ≠ [] →
    for_missing (find_missing_ids leds total_leds) leds 0 = Ok (leds', patched) →
    patched ≠ 0 →
    iteration_step total_leds max_iterations
      (iteration, leds) (iteration + 1, leds').

(** The loop heads the engine passes through when started on [leds0]. *)
Definition loop_head (total_leds max_iterations : Z) (leds0 : gmap Z led)
    (s : loop_state) : Prop :=
  rtc (iteration_step total_leds max_iterations) (0, leds0) s.


(** [leds] has grown out of [leds0] by insertions at ids that [leds0]
    bounds on both sides. *)
Definition grown (leds0 leds : gmap Z led) : Prop :=
  leds0 ⊆ leds ∧
  ∀ k, present leds k → present leds0 k ∨ bounded_both leds0 k.

(** The state in which the loop is left when it is entered with a
    dictionary that has no interior gap. *)
Definition settle (total max_it it : Z) (leds : gmap Z led)
    (log : list message) : patch_state :=
  if len leds <? total then
    if it <? max_it then
      PatchState leds (it + 1)
        (log ++ [MsgCouldNotPatch (length (find_missing_ids leds total))])
        BreakStalled
    else PatchState leds it log ExitCap
  else PatchState leds it log ExitSize.

(** The dictionary after one pass over its missing ids. *)
Definition sweep (leds : gmap Z led) (total_leds : Z) : gmap Z led :=
  match for_missing (find_missing_ids leds total_leds) leds 0 with
  | Ok st => st.1
  | _ => leds
  end.

(** The loop in closed form: one productive pass if there is an interior gap
    to patch, after which the loop settles. *)
Definition one_pass_then_settle (total max_it it : Z) (leds : gmap Z led)
    (log : list message) : patch_state :=
  if bool_decide (len leds < total ∧ it < max_it ∧
                  interior_gaps leds total ≠ []) then
    let leds' := sweep leds total in
    settle total max_it (it + 1) leds'
      (log ++ [MsgIteration (it + 1)
                 (Z.of_nat (length (interior_gaps leds total)))
                 (size leds') total])
  else settle total max_it it leds log.

(** ** Keys of the dictionary *)

Section keys.
Implicit Types (leds : gmap Z led) (k id : Z).

Lemma elem_of_keys leds k : k ∈ keys leds ↔ present leds k.
Proof.
  unfold keys, present. rewrite list_elem_of_fmap. split.
  - intros [[k' v] [-> Hin]]. apply elem_of_map_to_list in Hin. eauto.
  - intros [v Hv]. exists (k, v). split; [done|].
    by apply elem_of_map_to_list.
Qed.

Lemma NoDup_keys leds : NoDup (keys leds).
Proof. apply NoDup_fst_map_to_list. Qed.

Lemma length_keys leds : length (keys leds) = size leds.
Proof. unfold keys. by rewrite length_fmap, length_map_to_list. Qed.

Lemma keys_set leds : list_to_set (keys leds) = (dom leds : gset Z).
Proof.
  apply set_eq. intros k.
  rewrite elem_of_list_to_set, elem_of_keys, elem_of_dom. done.
Qed.

Lemma present_insert leds id v k :
  present (<[id := v]> leds) k ↔ k = id ∨ present leds k.
Proof.
  unfold present. destruct (decide (id = k)) as [->|Hne].
  - rewrite lookup_insert_eq. naive_solver.
  - rewrite lookup_insert_ne by done. naive_solver.
Qed.

Lemma not_present leds k : ¬ present leds k ↔ leds !! k = None.
Proof. unfold present. by rewrite eq_None_not_Some. Qed.
End keys.

(** ** [find_missing_ids] *)

Section find_missing.
Implicit Types (leds : gmap Z led) (total id : Z).

Lemma elem_of_range n k : k ∈ range n ↔ 0 ≤ k < n.
Proof. unfold range. rewrite elem_of_seqZ. lia. Qed.

Lemma missing_set_elem leds total id :
  id ∈ (list_to_set (range total) ∖ list_to_set (keys leds) : gset Z)
  ↔ gap leds total id.
Proof.
  rewrite elem_of_difference, !elem_of_list_to_set, elem_of_range,
    elem_of_keys, not_present. done.
Qed.

Lemma elem_of_find_missing_ids leds total id :
  id ∈ find_missing_ids leds total ↔ gap leds total id.
Proof.
  unfold find_missing_ids.
  rewrite merge_sort_Permutation, elem_of_elements.
  apply missing_set_elem.
Qed.

Lemma NoDup_find_missing_ids leds total :
  NoDup (find_missing_ids leds total).
Proof.
  unfold find_missing_ids.
  rewrite merge_sort_Permutation. apply NoDup_elements.
Qed.

Lemma StronglySorted_le_lt (l : list Z) :
  StronglySorted Z.le l → NoDup l → StronglySorted Z.lt l.
Proof.
  induction 1 as [|a l Hs IH Hall]; intros Hnd; [constructor|].
  apply NoDup_cons in Hnd as [Hnotin Hnd].
  constructor; [by apply IH|].
  rewrite Forall_forall in Hall |- *. intros b Hb.
  specialize (Hall b Hb).
  assert (a ≠ b) by (intros ->; done). lia.
Qed.

Lemma find_missing_ids_ascending leds total :
  StronglySorted Z.lt (find_missing_ids leds total).
Proof.
  apply StronglySorted_le_lt; [|apply NoDup_find_missing_ids].
  unfold find_missing_ids. apply (StronglySorted_merge_sort Z.le).
Qed.

Lemma find_missing_ids_nil leds total :
  find_missing_ids leds total = [] ↔
  ∀ id, 0 ≤ id < total → present leds id.
Proof.
  split.
  - intros Hnil id Hid.
    destruct (leds !! id) as [v|] eqn:Hl; [by exists v|].
    assert (id ∈ find_missing_ids leds total) as Hin
      by (by apply elem_of_find_missing_ids).
    rewrite Hnil in Hin. by apply elem_of_nil in Hin.
  - intros Hall. apply elem_of_nil_inv. intros id Hin.
    apply elem_of_find_missing_ids in Hin as [Hid Hnone].
    apply not_present in Hnone. by apply Hnone, Hall.
Qed.
Lemma StronglySorted_filter_lt (P : Z → Prop) `{∀ x, Decision (P x)}
    (l : list Z) :
  StronglySorted Z.lt l → StronglySorted Z.lt (filter P l).
Proof.
  induction 1 as [|a l Hs IH Hall]; [constructor|].
  rewrite filter_cons. case_decide; [|done].
  constructor; [done|].
  rewrite Forall_forall in Hall |- *.
  intros b [_ Hb]%list_elem_of_filter. by apply Hall.
Qed.

Lemma StronglySorted_range n : StronglySorted Z.lt (range n).
Proof.
  unfold range. generalize 0.
  induction (Z.to_nat n) as [|k IH] eqn:Hk in n |- *; intros m.
  - rewrite seqZ_nil by lia. constructor.
  - rewrite seqZ_cons by lia. constructor.
    + apply IH. lia.
    + apply Forall_seqZ. lia.
Qed.

(** The missing ids are the range with the present ids struck out. *)
Lemma find_missing_ids_filter_range leds total :
  find_missing_ids leds total
  = filter (λ id, leds !! id = None) (range total).
Proof.
  apply (StronglySorted_unique_strong Z.lt).
  - intros; lia.
  - apply find_missing_ids_ascending.
  - apply StronglySorted_filter_lt, StronglySorted_range.
  - apply NoDup_Permutation.
    + apply NoDup_find_missing_ids.
    + apply NoDup_filter, NoDup_seqZ.
    + intros id. rewrite elem_of_find_missing_ids, list_elem_of_filter,
        elem_of_range. unfold gap. tauto.
Qed.
End find_missing.

(** ** The neighbour locators *)

Section locators.
Implicit Types (leds : gmap Z led) (id k : Z).

Lemma max_from_spec (a : Z) (l : list Z) :
  max_from a l ∈ a :: l ∧ ∀ b, b ∈ a :: l → b ≤ max_from a l.
Proof.
  unfold max_from. revert a.
  induction l as [|c l IH]; intros a; simpl.
  - split; [left|]. intros b ->%list_elem_of_singleton. lia.
  - destruct (IH (a `max` c)) as [Hin Hub]. split.
    + apply elem_of_cons in Hin as [Heq|Hin].
      * rewrite Heq. destruct (Z.max_spec a c) as [[_ ->]|[_ ->]].
        -- right; left.
        -- left.
      * right; by right.
    + intros b Hb.
      assert (a `max` c ≤ foldl Z.max (a `max` c) l) by (apply Hub; left).
      apply elem_of_cons in Hb as [->|Hb]; [lia|].
      apply elem_of_cons in Hb as [->|Hb]; [lia|].
      apply Hub. by right.
Qed.

Lemma min_from_spec (a : Z) (l : list Z) :
  min_from a l ∈ a :: l ∧ ∀ b, b ∈ a :: l → min_from a l ≤ b.
Proof.
  unfold min_from. revert a.
  induction l as [|c l IH]; intros a; simpl.
  - split; [left|]. intros b ->%list_elem_of_singleton. lia.
  - destruct (IH (a `min` c)) as [Hin Hlb]. split.
    + apply elem_of_cons in Hin as [Heq|Hin].
      * rewrite Heq. destruct (Z.min_spec a c) as [[_ ->]|[_ ->]].
        -- left.
        -- right; left.
      * right; by right.
    + intros b Hb.
      assert (foldl Z.min (a `min` c) l ≤ a `min` c) by (apply Hlb; left).
      apply elem_of_cons in Hb as [->|Hb]; [lia|].
      apply elem_of_cons in Hb as [->|Hb]; [lia|].
      apply Hlb. by right.
Qed.

Lemma max_below_unique leds id k1 k2 :
  max_below leds id k1 → max_below leds id k2 → k1 = k2.
Proof.
  intros (Hp1 & Hlt1 & Hmax1) (Hp2 & Hlt2 & Hmax2).
  specialize (Hmax1 k2 Hp2 Hlt2). specialize (Hmax2 k1 Hp1 Hlt1). lia.
Qed.

Lemma min_above_unique leds id k1 k2 :
  min_above leds id k1 → min_above leds id k2 → k1 = k2.
Proof.
  intros (Hp1 & Hlt1 & Hmin1) (Hp2 & Hlt2 & Hmin2).
  specialize (Hmin1 k2 Hp2 Hlt2). specialize (Hmin2 k1 Hp1 Hlt1). lia.
Qed.

Lemma find_nearest_prev_led_sound leds id k :
  find_nearest_prev_led leds id = Some k → max_below leds id k.
Proof.
  unfold find_nearest_prev_led.
  destruct (filter _ (keys leds)) as [|a l] eqn:Hf; [done|].
  intros [= <-]. destruct (max_from_spec a l) as [Hin Hub].
  rewrite <- Hf in Hin. apply list_elem_of_filter in Hin as [Hlt Hin].
  apply elem_of_keys in Hin. repeat split; [done..|].
  intros k' Hk' Hlt'. apply Hub. rewrite <- Hf.
  apply list_elem_of_filter. split; [done|]. by apply elem_of_keys.
Qed.

Lemma find_nearest_prev_led_None leds id :
  find_nearest_prev_led leds id = None ↔ ¬ has_below leds id.
Proof.
  unfold find_nearest_prev_led, has_below.
  destruct (filter _ (keys leds)) as [|a l] eqn:Hf.
  - split; [|done]. intros _ (k & Hk & Hlt).
    assert (k ∈ filter (λ id0, id0 < id) (keys leds)) as Hin.
    { apply list_elem_of_filter. split; [done|]. by apply elem_of_keys. }
    rewrite Hf in Hin. by apply elem_of_nil in Hin.
  - split; [done|]. intros Hno. exfalso. apply Hno.
    assert (a ∈ filter (λ id0, id0 < id) (keys leds)) as Hin
      by (rewrite Hf; left).
    apply list_elem_of_filter in Hin as [Hlt Hin].
    exists a. split; [|done]. by apply elem_of_keys.
Qed.

Lemma find_nearest_prev_led_Some leds id k :
  find_nearest_prev_led leds id = Some k ↔ max_below leds id k.
Proof.
  split; [apply find_nearest_prev_led_sound|].
  intros Hk. destruct (find_nearest_prev_led leds id) as [k'|] eqn:Hf.
  - f_equal. apply find_nearest_prev_led_sound in Hf.
    by eapply max_below_unique.
  - apply find_nearest_prev_led_None in Hf. exfalso. apply Hf.
    destruct Hk as (Hp & Hlt & _). by exists k.
Qed.

Lemma find_nearest_next_led_sound leds id k :
  find_nearest_next_led leds id = Some k → min_above leds id k.
Proof.
  unfold find_nearest_next_led.
  destruct (filter _ (keys leds)) as [|a l] eqn:Hf; [done|].
  intros [= <-]. destruct (min_from_spec a l) as [Hin Hlb].
  rewrite <- Hf in Hin. apply list_elem_of_filter in Hin as [Hgt Hin].
  apply elem_of_keys in Hin. repeat split; [done|lia|].
  intros k' Hk' Hlt'. apply Hlb. rewrite <- Hf.
  apply list_elem_of_filter. split; [lia|]. by apply elem_of_keys.
Qed.

Lemma find_nearest_next_led_None leds id :
  find_nearest_next_led leds id = None ↔ ¬ has_above leds id.
Proof.
  unfold find_nearest_next_led, has_above.
  destruct (filter _ (keys leds)) as [|a l] eqn:Hf.
  - split; [|done]. intros _ (k & Hk & Hlt).
    assert (k ∈ filter (λ id0, id0 > id) (keys leds)) as Hin.
    { apply list_elem_of_filter. split; [lia|]. by apply elem_of_keys. }
    rewrite Hf in Hin. by apply elem_of_nil in Hin.
  - split; [done|]. intros Hno. exfalso. apply Hno.
    assert (a ∈ filter (λ id0, id0 > id) (keys leds)) as Hin
      by (rewrite Hf; left).
    apply list_elem_of_filter in Hin as [Hgt Hin].
    exists a. split; [by apply elem_of_keys|lia].
Qed.

Lemma find_nearest_next_led_Some leds id k :
  find_nearest_next_led leds id = Some k ↔ min_above leds id k.
Proof.
  split; [apply find_nearest_next_led_sound|].
  intros Hk. destruct (find_nearest_next_led leds id) as [k'|] eqn:Hf.
  - f_equal. apply find_nearest_next_led_sound in Hf.
    by eapply min_above_unique.
  - apply find_nearest_next_led_None in Hf. exfalso. apply Hf.
    destruct Hk as (Hp & Hlt & _). by exists k.
Qed.

Lemma find_nearest_prev_led_is_Some leds id :
  is_Some (find_nearest_prev_led leds id) ↔ has_below leds id.
Proof.
  rewrite <- not_eq_None_Some, find_nearest_prev_led_None.
  split; [|tauto]. intros Hnn.
  destruct (find_nearest_prev_led leds id) as [k|] eqn:Hf.
  - apply find_nearest_prev_led_sound in Hf as (? & ? & _). by exists k.
  - apply find_nearest_prev_led_None in Hf. tauto.
Qed.

Lemma find_nearest_next_led_is_Some leds id :
  is_Some (find_nearest_next_led leds id) ↔ has_above leds id.
Proof.
  rewrite <- not_eq_None_Some, find_nearest_next_led_None.
  split; [|tauto]. intros Hnn.
  destruct (find_nearest_next_led leds id) as [k|] eqn:Hf.
  - apply find_nearest_next_led_sound in Hf as (? & ? & _). by exists k.
  - apply find_nearest_next_led_None in Hf. tauto.
Qed.
End locators.

(** ** Binary64 division of two integers *)

(** The rounding of [SpecFloat], followed far enough to know what
    [int_truediv] returns when the numerator is positive and smaller than the
    denominator: never an infinity, and a normal number below one when the
    denominator has at most 53 bits. *)

Section binary64.
Implicit Types (n k a b : Z) (p : positive).

Lemma digits2_pos_size p : digits2_pos p = Pos.size p.
Proof. induction p; simpl; congruence. Qed.

Lemma Zdigits2_nonneg n : 0 ≤ Zdigits2 n.
Proof. destruct n; simpl; lia. Qed.

Lemma Zdigits2_gt n : 0 ≤ n → n < 2 ^ Zdigits2 n.
Proof.
  destruct n as [|p|p]; simpl; [lia| |lia]. intros _.
  rewrite digits2_pos_size.
  pose proof (Pos.size_gt p) as H.
  apply Pos2Z.pos_lt_pos in H. by rewrite Pos2Z.inj_pow in H.
Qed.

Lemma Zdigits2_le n : 0 < n → 2 ^ (Zdigits2 n - 1) ≤ n.
Proof.
  destruct n as [|p|p]; simpl; [lia| |lia]. intros _.
  rewrite digits2_pos_size.
  pose proof (Pos.size_le p) as H.
  apply Pos2Z.pos_le_pos in H. rewrite Pos2Z.inj_pow in H.
  replace (Z.pos (Pos.size p)) with (Z.succ (Z.pos (Pos.size p) - 1)) in H
    by lia.
  rewrite Z.pow_succ_r in H by lia. lia.
Qed.

Lemma Zdigits2_bound n k : 0 ≤ k → 0 ≤ n < 2 ^ k → Zdigits2 n ≤ k.
Proof.
  intros Hk [Hn Hlt]. destruct (Z.eq_dec n 0) as [->|Hnz]; [simpl; lia|].
  pose proof (Zdigits2_le n ltac:(lia)) as Hle.
  destruct (Z_lt_le_dec k (Zdigits2 n)) as [Hc|]; [|done].
  assert (2 ^ k ≤ 2 ^ (Zdigits2 n - 1)) by (apply Z.pow_le_mono_r; lia).
  lia.
Qed.

Lemma Zdigits2_succ n : 0 ≤ n → Zdigits2 (n + 1) ≤ Zdigits2 n + 1.
Proof.
  intros Hn. pose proof (Zdigits2_gt n Hn) as Hgt.
  pose proof (Zdigits2_nonneg n) as Hd.
  apply Zdigits2_bound; [lia|]. split; [lia|].
  rewrite Z.pow_add_r by lia. lia.
Qed.

Lemma shr_1_m_nonneg s : 0 ≤ shr_m s → 0 ≤ shr_m (shr_1 s).
Proof. destruct s as [[|[p|p|]|[p|p|]] r t]; simpl; lia. Qed.

Lemma shr_1_digits s :
  Zdigits2 (shr_m (shr_1 s)) = Z.max 0 (Zdigits2 (shr_m s) - 1).
Proof. destruct s as [[|[p|p|]|[p|p|]] r t]; simpl; lia. Qed.

Lemma iter_shr_1_m_nonneg p s :
  0 ≤ shr_m s → 0 ≤ shr_m (SpecFloat.iter_pos shr_1 p s).
Proof.
  revert s. induction p as [p IH|p IH|]; intros s Hs; simpl.
  - by apply IH, IH, shr_1_m_nonneg.
  - by apply IH, IH.
  - by apply shr_1_m_nonneg.
Qed.

Lemma iter_shr_1_digits p s :
  Zdigits2 (shr_m (SpecFloat.iter_pos shr_1 p s))
  = Z.max 0 (Zdigits2 (shr_m s) - Z.pos p).
Proof.
  revert s. induction p as [p IH|p IH|]; intros s; simpl.
  - rewrite !IH, shr_1_digits. lia.
  - rewrite !IH. lia.
  - apply shr_1_digits.
Qed.

Lemma shr_record_of_loc_m m l : shr_m (shr_record_of_loc m l) = m.
Proof. by destruct l as [|[]]. Qed.

Lemma round_nearest_even_bounds m l :
  m ≤ round_nearest_even m l ≤ m + 1.
Proof. destruct l as [|[]]; simpl; try lia. destruct (Z.even m); lia. Qed.

(** Exponent and mantissa size after the truncation to the format. *)
Lemma shr_fexp_spec m e l mrs e' :
  0 ≤ m →
  shr_fexp prec emax m e l = (mrs, e') →
  0 ≤ shr_m mrs ∧
  e' = Z.max e (fexp prec emax (Zdigits2 m + e)) ∧
  Zdigits2 (shr_m mrs) = Z.max 0 (Zdigits2 m - (e' - e)).
Proof.
  intros Hm. pose proof (Zdigits2_nonneg m) as Hd. unfold shr_fexp, shr.
  destruct (fexp prec emax (Zdigits2 m + e) - e) as [|p|p] eqn:Hn;
    intros [= <- <-]; rewrite ?iter_shr_1_digits, ?shr_record_of_loc_m.
  - repeat split; [done|lia|lia].
  - split; [|lia].
    apply iter_shr_1_m_nonneg. by rewrite shr_record_of_loc_m.
  - repeat split; [done|lia|lia].
Qed.

Lemma binary_round_aux_not_infinity sx mx ex lx s :
  0 ≤ mx → ex ≤ 0 → Zdigits2 mx + ex ≤ 0 →
  binary_round_aux prec emax sx mx ex lx ≠ S754_infinity s.
Proof.
  intros Hmx Hex Hd. unfold binary_round_aux.
  destruct (shr_fexp prec emax mx ex lx) as [mrs1 e1] eqn:H1.
  apply shr_fexp_spec in H1 as (Hm1 & He1 & Hd1); [|done].
  pose proof (round_nearest_even_bounds (shr_m mrs1) (loc_of_shr_record mrs1))
    as Hr.
  set (m1 := round_nearest_even _ _) in *.
  destruct (shr_fexp prec emax m1 e1 loc_Exact) as [mrs2 e2] eqn:H2.
  apply shr_fexp_spec in H2 as (Hm2 & He2 & Hd2); [|lia].
  destruct (shr_m mrs2) as [|p|p]; [done| |done].
  destruct (e2 <=? emax - prec) eqn:Hle; [done|].
  exfalso. apply Z.leb_gt in Hle.
  assert (Zdigits2 m1 ≤ Zdigits2 (shr_m mrs1) + 1) as Hdm1.
  { destruct (Z.eq_dec m1 (shr_m mrs1)) as [->|]; [lia|].
    replace m1 with (shr_m mrs1 + 1) by lia. by apply Zdigits2_succ. }
  revert He1 He2 Hle Hd1 Hdm1. unfold fexp, SpecFloat.emin, prec, emax. lia.
Qed.

(** The quotient digits computed for two integers. *)
Lemma SFdiv_core_binary_int a b q e l :
  0 < a → 0 < b →
  SFdiv_core_binary prec emax a 0 b 0 = (q, e, l) →
  e = Z.min (fexp prec emax (Zdigits2 a - Zdigits2 b)) 0 ∧
  q = (a * 2 ^ (- e)) `div` b ∧
  l = new_location b ((a * 2 ^ (- e)) `mod` b).
Proof.
  intros Ha Hb. unfold SFdiv_core_binary.
  rewrite !Z.add_0_r, Z.sub_0_r. simpl (0 - 0).
  set (e' := Z.min _ 0).
  assert (e' ≤ 0) as He' by (unfold e'; lia).
  assert ((match 0 - e' with
           | 0 => a
           | Z.pos _ => Z.shiftl a (0 - e')
           | Z.neg _ => 0
           end) = a * 2 ^ (- e')) as ->.
  { destruct (0 - e') as [|p|p] eqn:Hs.
    - replace (- e') with 0 by lia. simpl. lia.
    - rewrite Z.shiftl_mul_pow2 by lia. f_equal. f_equal. lia.
    - lia. }
  destruct (Z.div_eucl (a * 2 ^ (- e')) b) as [q' r'] eqn:Hdiv.
  intros [= <- <- <-]. unfold Z.div, Z.modulo. by rewrite Hdiv.
Qed.

Lemma int_quotient_not_infinity a b s :
  0 < a < b →
  SFdiv prec emax (S754_finite false (Z.to_pos a) 0)
    (S754_finite false (Z.to_pos b) 0) ≠ S754_infinity s.
Proof.
  intros [Ha Hab]. unfold SFdiv.
  rewrite !Z2Pos.id by lia.
  destruct (SFdiv_core_binary prec emax a 0 b 0) as [[q e] l] eqn:Hcore.
  apply SFdiv_core_binary_int in Hcore as (He & -> & _); [|lia..].
  assert (e ≤ 0) by lia.
  assert (0 < 2 ^ (- e)) by (apply Z.pow_pos_nonneg; lia).
  assert (0 ≤ (a * 2 ^ (- e)) `div` b) by (apply Z.div_pos; nia).
  assert ((a * 2 ^ (- e)) `div` b < 2 ^ (- e)).
  { apply Z.div_lt_upper_bound; nia. }
  apply binary_round_aux_not_infinity; [done..|].
  assert (Zdigits2 ((a * 2 ^ (- e)) `div` b) ≤ - e)
    by (apply Zdigits2_bound; lia).
  lia.
Qed.

Lemma Zdigits2_unique n k :
  0 < k → 2 ^ (k - 1) ≤ n < 2 ^ k → Zdigits2 n = k.
Proof.
  intros Hk [Hlo Hhi].
  assert (0 < n) as Hn.
  { pose proof (Z.pow_pos_nonneg 2 (k - 1)). lia. }
  pose proof (Zdigits2_bound n k ltac:(lia) ltac:(lia)) as Hub.
  pose proof (Zdigits2_gt n ltac:(lia)) as Hgt.
  pose proof (Zdigits2_nonneg n) as Hd.
  destruct (Z_lt_le_dec (Zdigits2 n) k) as [Hc|]; [|lia].
  assert (2 ^ Zdigits2 n ≤ 2 ^ (k - 1)) by (apply Z.pow_le_mono_r; lia).
  lia.
Qed.

Lemma shr_1_m s : 0 ≤ shr_m s → shr_m (shr_1 s) = shr_m s `div` 2.
Proof.
  destruct s as [[|[p|p|]|[p|p|]] r t]; unfold shr_1, shr_m;
    try done; try lia; intros _.
  - apply (Z.div_unique_pos _ _ _ 1); lia.
  - apply (Z.div_unique_pos _ _ _ 0); lia.
Qed.

Lemma iter_shr_1_m p s :
  0 ≤ shr_m s →
  shr_m (SpecFloat.iter_pos shr_1 p s) = shr_m s `div` 2 ^ Z.pos p.
Proof.
  revert s. induction p as [p IH|p IH|]; intros s Hs; simpl.
  - rewrite IH by (apply iter_shr_1_m_nonneg; by apply shr_1_m_nonneg).
    rewrite IH by (by apply shr_1_m_nonneg). rewrite shr_1_m by done.
    assert (0 < 2 ^ Z.pos p) by (apply Z.pow_pos_nonneg; lia).
    rewrite !Z.div_div by lia.
    f_equal. change (Z.pos p~1) with (2 * Z.pos p + 1).
    replace (2 * Z.pos p + 1) with (1 + Z.pos p + Z.pos p) by lia.
    rewrite !Z.pow_add_r by lia. simpl (2 ^ 1). lia.
  - rewrite IH by (by apply iter_shr_1_m_nonneg). rewrite IH by done.
    assert (0 < 2 ^ Z.pos p) by (apply Z.pow_pos_nonneg; lia).
    rewrite !Z.div_div by lia.
    f_equal. change (Z.pos p~0) with (2 * Z.pos p).
    replace (2 * Z.pos p) with (Z.pos p + Z.pos p) by lia.
    by rewrite !Z.pow_add_r by lia.
  - by apply shr_1_m.
Qed.

Lemma shr_fexp_m m e l mrs e' :
  0 ≤ m →
  shr_fexp prec emax m e l = (mrs, e') →
  shr_m mrs = m `div` 2 ^ (e' - e).
Proof.
  intros Hm. unfold shr_fexp, shr.
  destruct (fexp prec emax (Zdigits2 m + e) - e) as [|p|p] eqn:Hn;
    intros [= <- <-].
  - rewrite shr_record_of_loc_m, Z.sub_diag. simpl. by rewrite Z.div_1_r.
  - rewrite iter_shr_1_m by (by rewrite shr_record_of_loc_m).
    rewrite shr_record_of_loc_m. f_equal. f_equal. lia.
  - rewrite shr_record_of_loc_m, Z.sub_diag. simpl. by rewrite Z.div_1_r.
Qed.

Lemma fexp_normal k : -1021 ≤ k → fexp prec emax k = k - 53.
Proof. unfold fexp, SpecFloat.emin, prec, emax. lia. Qed.

(** Rounding a mantissa of 53 or 54 bits, away from the subnormal range and
    from overflow: the result has 53 bits, and its exponent is the one of
    the truncation unless the rounding carries into a 54th bit. *)
Lemma binary_round_aux_normal mx ex lx :
  2 ^ 52 ≤ mx < 2 ^ 54 → -1074 ≤ ex ≤ 969 →
  ∃ m e,
    binary_round_aux prec emax false mx ex lx = S754_finite false m e ∧
    Zdigits2 (Z.pos m) = 53 ∧
    (e = ex + (Zdigits2 mx - 53) ∨
     (e = ex + (Zdigits2 mx - 53) + 1 ∧
      mx `div` 2 ^ (Zdigits2 mx - 53) = 2 ^ 53 - 1)).
Proof.
  intros [Hlo Hhi] Hex.
  assert (2 ^ 52 = 4503599627370496) as E52 by reflexivity.
  assert (2 ^ 53 = 9007199254740992) as E53 by reflexivity.
  assert (2 ^ 54 = 18014398509481984) as E54 by reflexivity.
  assert (53 ≤ Zdigits2 mx ≤ 54) as Hd.
  { split; [|apply Zdigits2_bound; lia].
    pose proof (Zdigits2_gt mx ltac:(lia)) as Hgt.
    pose proof (Zdigits2_nonneg mx) as Hnn.
    destruct (Z_lt_le_dec (Zdigits2 mx) 53) as [Hc|]; [|done].
    assert (2 ^ Zdigits2 mx ≤ 2 ^ 52) by (apply Z.pow_le_mono_r; lia).
    lia. }
  set (K := Zdigits2 mx - 53) in *.
  unfold binary_round_aux.
  destruct (shr_fexp prec emax mx ex lx) as [mrs1 e1] eqn:H1.
  assert (0 ≤ mx) as Hmx by lia.
  pose proof (shr_fexp_m _ _ _ _ _ Hmx H1) as Hq1.
  apply shr_fexp_spec in H1 as (Hm1 & He1 & Hd1); [|lia].
  rewrite fexp_normal in He1 by lia.
  assert (e1 = ex + K) as -> by (unfold K; lia).
  replace (ex + K - ex) with K in * by lia.
  assert (Zdigits2 (shr_m mrs1) = 53) as Hd1' by (unfold K in *; lia).
  clear Hd1.
  pose proof (Zdigits2_gt (shr_m mrs1) Hm1) as Hq1hi.
  assert (0 < shr_m mrs1) as Hq1pos.
  { destruct (shr_m mrs1); simpl in Hd1'; lia. }
  pose proof (Zdigits2_le (shr_m mrs1) Hq1pos) as Hq1lo.
  rewrite Hd1' in Hq1hi, Hq1lo. simpl (53 - 1) in Hq1lo.
  pose proof (round_nearest_even_bounds (shr_m mrs1)
                (loc_of_shr_record mrs1)) as Hr.
  set (m1 := round_nearest_even _ _) in *.
  destruct (shr_fexp prec emax m1 (ex + K) loc_Exact) as [mrs2 e2] eqn:H2.
  assert (0 ≤ m1) as Hm1' by lia.
  pose proof (shr_fexp_m _ _ _ _ _ Hm1' H2) as Hq2.
  apply shr_fexp_spec in H2 as (Hm2 & He2 & Hd2); [|lia].
  destruct (Z_lt_le_dec m1 (2 ^ 53)) as [Hsmall|Hcarry].
  - assert (Zdigits2 m1 = 53) as Hdm1 by (apply Zdigits2_unique; simpl; lia).
    rewrite Hdm1, fexp_normal in He2 by (unfold K; lia).
    assert (e2 = ex + K) as -> by lia.
    rewrite Z.sub_diag in Hq2, Hd2. simpl in Hq2. rewrite Z.div_1_r in Hq2.
    rewrite Hq2 in *. destruct m1 as [|m|m]; [lia| |lia].
    destruct (Z.leb_spec (ex + K) (emax - prec)) as [_|Hov];
      [|unfold emax, prec in Hov; lia].
    exists m, (ex + K). split; [done|]. split; [done|]. by left.
  - assert (m1 = 2 ^ 53) as Hm1eq by lia.
    assert (Zdigits2 m1 = 54) as Hdm1 by (by rewrite Hm1eq).
    rewrite Hdm1, fexp_normal in He2 by (unfold K; lia).
    assert (e2 = ex + K + 1) as -> by lia.
    replace (ex + K + 1 - (ex + K)) with 1 in * by lia.
    rewrite Hm1eq in Hq2. change (2 ^ 53 `div` 2 ^ 1) with (2 ^ 52) in Hq2.
    rewrite Hq2.
    destruct (Z.leb_spec (ex + K + 1) (emax - prec)) as [_|Hov];
      [|unfold emax, prec in Hov; lia].
    exists (Z.to_pos (2 ^ 52)), (ex + K + 1).
    split; [done|]. split; [done|]. right. split; [done|].
    rewrite <- Hq1. lia.
Qed.

(** The quotient of two integers below [2^53], the smaller one on top, is
    a normal number below one. *)
Lemma int_quotient_normal a b :
  0 < a < b → b < 2 ^ 53 →
  ∃ m e,
    SFdiv prec emax (S754_finite false (Z.to_pos a) 0)
      (S754_finite false (Z.to_pos b) 0) = S754_finite false m e ∧
    Zdigits2 (Z.pos m) = 53 ∧ -106 ≤ e ≤ -53.
Proof.
  intros [Ha Hab] Hb.
  assert (2 ^ 52 = 4503599627370496) as E52 by reflexivity.
  assert (2 ^ 53 = 9007199254740992) as E53 by reflexivity.
  assert (2 ^ 54 = 18014398509481984) as E54 by reflexivity.
  unfold SFdiv. rewrite !Z2Pos.id by lia.
  destruct (SFdiv_core_binary prec emax a 0 b 0) as [[q e] l] eqn:Hcore.
  apply SFdiv_core_binary_int in Hcore as (He & Hq & _); [|lia..].
  set (d1 := Zdigits2 a) in *. set (d2 := Zdigits2 b) in *.
  pose proof (Zdigits2_gt a ltac:(lia)) as Ha_hi.
  pose proof (Zdigits2_le a ltac:(lia)) as Ha_lo.
  pose proof (Zdigits2_gt b ltac:(lia)) as Hb_hi.
  pose proof (Zdigits2_le b ltac:(lia)) as Hb_lo.
  fold d1 in Ha_hi, Ha_lo. fold d2 in Hb_hi, Hb_lo.
  assert (1 ≤ d1) as Hd1.
  { unfold d1. destruct a; simpl; lia. }
  assert (d2 ≤ 53) as Hd2 by (apply Zdigits2_bound; lia).
  assert (d1 ≤ d2) as Hd12.
  { apply Zdigits2_bound; [unfold d2; apply Zdigits2_nonneg|lia]. }
  rewrite fexp_normal in He by lia.
  assert (e = d1 - d2 - 53) as He' by lia. clear He.
  set (s := 53 + d2 - d1).
  assert (- e = s) as Hs by (unfold s; lia). rewrite Hs in Hq.
  assert (0 < 2 ^ s) as Hps by (apply Z.pow_pos_nonneg; unfold s; lia).
  assert (2 ^ (d1 - 1) * 2 ^ s = 2 ^ 52 * 2 ^ d2) as Hpow1.
  { rewrite <- !Z.pow_add_r by (unfold s; lia). f_equal. unfold s. lia. }
  assert (2 ^ d1 * 2 ^ s = 2 ^ 54 * 2 ^ (d2 - 1)) as Hpow2.
  { rewrite <- !Z.pow_add_r by (unfold s; lia). f_equal. unfold s. lia. }
  assert (2 ^ 52 ≤ q < 2 ^ 54) as Hqb.
  { rewrite Hq. split.
    - apply Z.div_le_lower_bound; [lia|]. nia.
    - apply Z.div_lt_upper_bound; [lia|]. nia. }
  destruct (binary_round_aux_normal q e l Hqb ltac:(lia))
    as (m & e2 & Hround & Hdm & He2).
  exists m, e2. split; [done|]. split; [done|].
  set (K := Zdigits2 q - 53) in *.
  assert (0 ≤ K ≤ 1) as HK.
  { unfold K. split.
    - pose proof (Zdigits2_gt q ltac:(lia)) as Hgt.
      pose proof (Zdigits2_nonneg q) as Hnn.
      destruct (Z_lt_le_dec (Zdigits2 q) 53) as [Hc|]; [|lia].
      assert (2 ^ Zdigits2 q ≤ 2 ^ 52) by (apply Z.pow_le_mono_r; lia).
      lia.
    - assert (Zdigits2 q ≤ 54) by (apply Zdigits2_bound; lia). lia. }
  assert (e + K ≤ -53) as HA.
  { destruct (Z.eq_dec d1 d2) as [Heq|Hne]; [|lia].
    assert (s = 53) as Hs53 by (unfold s; lia).
    assert (q < 2 ^ 53).
    { rewrite Hq, Hs53. apply Z.div_lt_upper_bound; [lia|]. nia. }
    assert (Zdigits2 q ≤ 53) by (apply Zdigits2_bound; lia).
    unfold K. lia. }
  assert (q `div` 2 ^ K = 2 ^ 53 - 1 → e + K ≤ -54) as HB.
  { intros Hcarry.
    destruct (Z.eq_dec (e + K) (-53)) as [Heq|]; [exfalso|lia].
    assert (s = 53 + K) as HsK by lia.
    assert (0 < 2 ^ K) as HpK by (apply Z.pow_pos_nonneg; lia).
    assert (q `div` 2 ^ K = (a * 2 ^ 53) `div` b) as Hq'.
    { rewrite Hq, HsK, Z.pow_add_r by lia.
      rewrite Z.div_div by lia.
      rewrite Z.mul_assoc. apply Z.div_mul_cancel_r; lia. }
    rewrite Hq' in Hcarry.
    pose proof (Z.mul_div_le (a * 2 ^ 53) b ltac:(lia)) as Hle.
    rewrite Hcarry in Hle. nia. }
  lia.
Qed.
End binary64.

Lemma int_truediv_ok (a b : Z) :
  0 < a < b → int_truediv a b = Ok (SF2Prim (int_quotient_SF a b)).
Proof.
  intros Hab. unfold int_truediv.
  destruct (Z.eqb_spec b 0) as [->|_]; [lia|].
  destruct (int_quotient_SF a b) as [s|s| |s m e] eqn:Hq; try done.
  exfalso. revert Hq. unfold int_quotient_SF.
  destruct a as [|pa|pa]; [lia| |lia]. destruct b as [|pb|pb]; [lia| |lia].
  apply (int_quotient_not_infinity (Z.pos pa) (Z.pos pb) s Hab).
Qed.

(** The same quotient as a binary64 value: strictly between zero and one as
    long as the divisor is below [2^53]. *)
Lemma int_truediv_fraction (a b : Z) :
  0 < a < b → b < 2 ^ 53 →
  ∃ fraction, int_truediv a b = Ok fraction ∧
              (0 <? fraction)%float = true ∧ (fraction <? 1)%float = true.
Proof.
  intros Hab Hb. rewrite int_truediv_ok by done. eexists. split; [done|].
  destruct (int_quotient_normal a b Hab Hb) as (m & e & Hq & Hdm & He).
  unfold int_quotient_SF.
  destruct a as [|pa|pa]; [lia| |lia]. destruct b as [|pb|pb]; [lia| |lia].
  change (Z.to_pos (Z.pos pa)) with pa in Hq.
  change (Z.to_pos (Z.pos pb)) with pb in Hq.
  change (Z2SF (Z.pos pa)) with (S754_finite false pa 0).
  change (Z2SF (Z.pos pb)) with (S754_finite false pb 0).
  rewrite Hq.
  assert (Prim2SF (SF2Prim (S754_finite false m e)) = S754_finite false m e)
    as Hback.
  { apply Prim2SF_SF2Prim. unfold SpecFloat.valid_binary, bounded,
      canonical_mantissa. simpl in Hdm. injection Hdm as ->.
    rewrite fexp_normal by lia. apply andb_true_iff. split.
    - apply Z.eqb_eq. lia.
    - apply Z.leb_le. unfold emax, prec. lia. }
  rewrite !ltb_spec, Hback. split; [done|].
  change (Prim2SF 1) with (S754_finite false 4503599627370496 (-52)).
  unfold SFltb, SFcompare.
  destruct (Z.compare_spec e (-52)) as [?|?|?]; [lia|done|lia].
Qed.

(** ** [interpolate_led] *)

(** The record built by [interpolate_led] from the two bounding records and
    the interpolation weight. *)
Lemma interpolate_led_ok (leds : gmap Z led) (led_id prev_id next_id : Z)
    (prev_led next_led : led) :
  leds !! prev_id = Some prev_led →
  leds !! next_id = Some next_led →
  prev_id < led_id < next_id →
  interpolate_led leds led_id prev_id next_id =
    Ok (interpolated prev_led next_led
          (SF2Prim (int_quotient_SF (led_id - prev_id) (next_id - prev_id)))).
Proof.
  intros Hp Hn Hlt. unfold interpolate_led, getitem.
  rewrite Hp, Hn. simpl. rewrite int_truediv_ok by lia. done.
Qed.

(** ** One pass over the missing ids *)

Section sweep.
Implicit Types (leds : gmap Z led) (id k : Z).

Lemma has_below_Exists leds id :
  Exists (λ k, k < id) (keys leds) ↔ has_below leds id.
Proof.
  rewrite Exists_exists. unfold has_below.
  by setoid_rewrite elem_of_keys.
Qed.

Lemma has_above_Exists leds id :
  Exists (λ k, id < k) (keys leds) ↔ has_above leds id.
Proof.
  rewrite Exists_exists. unfold has_above.
  by setoid_rewrite elem_of_keys.
Qed.

Lemma interior_bounded_both leds id : interior leds id ↔ bounded_both leds id.
Proof.
  unfold interior, bounded_both.
  by rewrite has_below_Exists, has_above_Exists.
Qed.

Lemma elem_of_interior_gaps leds total id :
  id ∈ interior_gaps leds total ↔ gap leds total id ∧ bounded_both leds id.
Proof.
  unfold interior_gaps.
  rewrite list_elem_of_filter, interior_bounded_both,
    elem_of_find_missing_ids. tauto.
Qed.

Lemma outside_span_present leds id :
  outside_span leds id ↔
  (∀ k, present leds k → id < k) ∨ (∀ k, present leds k → k < id).
Proof.
  unfold outside_span. rewrite !Forall_forall.
  by setoid_rewrite elem_of_keys.
Qed.

(** Outside the span of the keys means: not bounded on both sides. *)
Lemma outside_span_iff leds id :
  leds !! id = None → (outside_span leds id ↔ ¬ bounded_both leds id).
Proof.
  intros Hnone. rewrite outside_span_present.
  unfold bounded_both, has_below, has_above. split.
  - intros [Hlo|Hhi] [(k1 & Hk1 & Hlt1) (k2 & Hk2 & Hlt2)].
    + specialize (Hlo k1 Hk1). lia.
    + specialize (Hhi k2 Hk2). lia.
  - intros Hnot.
    assert (∀ k, present leds k → k ≠ id) as Hne
      by (intros k [v Hv] ->; congruence).
    destruct (decide (Exists (λ k, k < id) (keys leds))) as [Hex|Hnex].
    + right. intros k Hk. specialize (Hne k Hk).
      destruct (decide (k < id)) as [|Hge]; [done|]. exfalso.
      apply Hnot. split; [by apply has_below_Exists|].
      exists k. split; [done|lia].
    + left. intros k Hk. specialize (Hne k Hk).
      destruct (decide (id < k)) as [|Hge]; [done|]. exfalso.
      apply Hnex, has_below_Exists. exists k. split; [done|lia].
Qed.

(** An id with both neighbours is patched ... *)
Lemma patch_one_bounded leds patched id :
  bounded_both leds id →
  ∃ prev_id next_id prev_led next_led,
    max_below leds id prev_id ∧ min_above leds id next_id ∧
    leds !! prev_id = Some prev_led ∧ leds !! next_id = Some next_led ∧
    patch_one leds patched id =
      Ok (<[id := interpolated prev_led next_led
                    (SF2Prim (int_quotient_SF (id - prev_id)
                                (next_id - prev_id)))]> leds,
          patched + 1).
Proof.
  intros [Hlo Hhi].
  apply find_nearest_prev_led_is_Some in Hlo as [prev_id Hprev].
  apply find_nearest_next_led_is_Some in Hhi as [next_id Hnext].
  unfold patch_one. rewrite Hprev, Hnext.
  apply find_nearest_prev_led_sound in Hprev.
  apply find_nearest_next_led_sound in Hnext.
  destruct (Hprev) as ([prev_led Hp] & Hlt1 & _).
  destruct (Hnext) as ([next_led Hn] & Hlt2 & _).
  exists prev_id, next_id, prev_led, next_led.
  split; [done|]. split; [done|]. split; [done|]. split; [done|].
  by rewrite (interpolate_led_ok _ _ _ _ prev_led next_led).
Qed.

(** ... and any other id is left alone. *)
Lemma patch_one_unbounded leds patched id :
  ¬ bounded_both leds id → patch_one leds patched id = Ok (leds, patched).
Proof.
  intros Hnot. unfold patch_one.
  destruct (find_nearest_prev_led leds id) as [p|] eqn:Hp; [|done].
  destruct (find_nearest_next_led leds id) as [n|] eqn:Hn; [|done].
  exfalso. apply Hnot. split.
  - apply find_nearest_prev_led_is_Some. by rewrite Hp.
  - apply find_nearest_next_led_is_Some. by rewrite Hn.
Qed.

Lemma grown_refl leds : grown leds leds.
Proof. split; [done|]. by left. Qed.

Lemma present_subseteq leds1 leds2 k :
  leds1 ⊆ leds2 → present leds1 k → present leds2 k.
Proof. intros Hsub [v Hv]. exists v. by eapply lookup_weaken. Qed.

Lemma grown_has_below leds0 leds id :
  grown leds0 leds → (has_below leds id ↔ has_below leds0 id).
Proof.
  intros [Hsub Hkeys]. split.
  - intros (k & Hk & Hlt). destruct (Hkeys k Hk) as [Hk0|[Hlo _]].
    + by exists k.
    + destruct Hlo as (k' & Hk' & Hlt'). exists k'. split; [done|lia].
  - intros (k & Hk & Hlt). exists k. split; [|done].
    by eapply present_subseteq.
Qed.

Lemma grown_has_above leds0 leds id :
  grown leds0 leds → (has_above leds id ↔ has_above leds0 id).
Proof.
  intros [Hsub Hkeys]. split.
  - intros (k & Hk & Hlt). destruct (Hkeys k Hk) as [Hk0|[_ Hhi]].
    + by exists k.
    + destruct Hhi as (k' & Hk' & Hlt'). exists k'. split; [done|lia].
  - intros (k & Hk & Hlt). exists k. split; [|done].
    by eapply present_subseteq.
Qed.

Lemma grown_bounded_both leds0 leds id :
  grown leds0 leds → (bounded_both leds id ↔ bounded_both leds0 id).
Proof.
  intros Hg. unfold bounded_both.
  by rewrite (grown_has_below leds0 leds), (grown_has_above leds0 leds).
Qed.

Lemma grown_insert leds0 leds id v :
  grown leds0 leds → leds !! id = None → bounded_both leds0 id →
  grown leds0 (<[id := v]> leds).
Proof.
  intros [Hsub Hkeys] Hnone Hb. split.
  - etrans; [done|]. by apply insert_subseteq.
  - intros k [->|Hk]%present_insert; [by right|by apply Hkeys].
Qed.

(** The whole pass, started anywhere in the middle of an iteration whose
    initial dictionary was [leds0]. *)
Lemma for_missing_spec leds0 ids leds patched :
  grown leds0 leds → NoDup ids → (∀ id, id ∈ ids → leds !! id = None) →
  ∃ leds',
    for_missing ids leds patched =
      Ok (leds', patched + Z.of_nat (length (filter (interior leds0) ids))) ∧
    grown leds0 leds' ∧ leds ⊆ leds' ∧
    ∀ k, present leds' k ↔ present leds k ∨ (k ∈ ids ∧ bounded_both leds0 k).
Proof.
  intros Hg Hnd Habs. revert leds patched Hg Habs.
  induction ids as [|id ids IH]; intros leds patched Hg Habs.
  - exists leds. simpl. rewrite Z.add_0_r. split_and!; [done..|].
    intros k. rewrite elem_of_nil. tauto.
  - apply NoDup_cons in Hnd as [Hnotin Hnd].
    assert (leds !! id = None) as Hnone by (apply Habs; left).
    simpl for_missing.
    destruct (decide (interior leds0 id)) as [Hint|Hint].
    + rewrite filter_cons_True by done.
      pose proof Hint as Hb0. apply interior_bounded_both in Hb0.
      pose proof Hb0 as Hb. apply (grown_bounded_both leds0 leds) in Hb; [|done].
      destruct (patch_one_bounded leds patched id Hb)
        as (p & n & pl & nl & _ & _ & _ & _ & ->). simpl.
      set (v := interpolated _ _ _).
      destruct (IH Hnd (<[id := v]> leds) (patched + 1))
        as (leds' & Hrun & Hg' & Hsub & Hkeys).
      { by apply grown_insert. }
      { intros id' Hin. rewrite lookup_insert_ne; [apply Habs; by right|].
        intros ->. done. }
      exists leds'. rewrite Hrun. split_and!; [|done| |].
      * f_equal. f_equal. lia.
      * etrans; [|done]. by apply insert_subseteq.
      * intros k. rewrite Hkeys, present_insert, elem_of_cons. naive_solver.
    + rewrite filter_cons_False by done.
      assert (¬ bounded_both leds id) as Hb.
      { rewrite (grown_bounded_both leds0 leds) by done.
        by rewrite <- interior_bounded_both. }
      rewrite (patch_one_unbounded leds patched id Hb). simpl.
      destruct (IH Hnd leds patched) as (leds' & Hrun & Hg' & Hsub & Hkeys).
      { done. }
      { intros id' Hin. apply Habs. by right. }
      exists leds'. rewrite Hrun. split_and!; [done..|].
      intros k. rewrite Hkeys, elem_of_cons.
      rewrite interior_bounded_both in Hint. naive_solver.
Qed.
End sweep.

(** ** One iteration of the loop *)

Section iteration.
Implicit Types (leds : gmap Z led) (id k total : Z).

(** The pass of one iteration never raises, patches exactly the interior
    gaps of the dictionary it started from, and nothing else. *)
Lemma sweep_spec leds total :
  ∃ leds',
    for_missing (find_missing_ids leds total) leds 0 =
      Ok (leds', Z.of_nat (length (interior_gaps leds total))) ∧
    grown leds leds' ∧
    ∀ k, present leds' k ↔
         present leds k ∨ (gap leds total k ∧ bounded_both leds k).
Proof.
  destruct (for_missing_spec leds (find_missing_ids leds total) leds 0)
    as (leds' & Hrun & Hg & _ & Hkeys).
  - apply grown_refl.
  - apply NoDup_find_missing_ids.
  - intros id Hin. by apply elem_of_find_missing_ids in Hin as [_ ?].
  - exists leds'. split_and!; [done..|].
    intros k. rewrite Hkeys, elem_of_find_missing_ids. done.
Qed.

Lemma sweep_Ok leds total leds' patched :
  for_missing (find_missing_ids leds total) leds 0 = Ok (leds', patched) →
  patched = Z.of_nat (length (interior_gaps leds total)) ∧
  grown leds leds' ∧
  ∀ k, present leds' k ↔
       present leds k ∨ (gap leds total k ∧ bounded_both leds k).
Proof.
  destruct (sweep_spec leds total) as (l & Hrun & Hg & Hkeys).
  rewrite Hrun. by intros [= <- <-].
Qed.

(** A pass that patches nothing leaves the dictionary as it was. *)
Lemma sweep_nothing leds total leds' :
  for_missing (find_missing_ids leds total) leds 0 = Ok (leds', 0) →
  leds' = leds.
Proof.
  intros Hrun. apply sweep_Ok in Hrun as (Hlen & [Hsub _] & Hkeys).
  assert (interior_gaps leds total = []) as Hnil
    by (apply length_zero_iff_nil; lia).
  apply (anti_symm (⊆)); [|done].
  apply map_subseteq_spec. intros k v Hv.
  assert (present leds' k) as Hk by (by exists v).
  apply Hkeys in Hk as [[w Hw]|Hgap].
  - by rewrite (lookup_weaken _ _ _ _ Hw Hsub) in Hv; simplify_eq.
  - apply elem_of_interior_gaps in Hgap. rewrite Hnil in Hgap.
    by apply elem_of_nil in Hgap.
Qed.

(** The gaps left by a pass are the gaps it could not bound. *)
Lemma gap_after_sweep leds total leds' patched id :
  for_missing (find_missing_ids leds total) leds 0 = Ok (leds', patched) →
  gap leds' total id ↔ gap leds total id ∧ ¬ bounded_both leds id.
Proof.
  intros (_ & _ & Hkeys)%sweep_Ok. unfold gap.
  rewrite <- !not_present, Hkeys. unfold gap.
  rewrite <- !not_present. tauto.
Qed.

Lemma find_missing_ids_after_sweep leds total leds' patched :
  for_missing (find_missing_ids leds total) leds 0 = Ok (leds', patched) →
  find_missing_ids leds' total ≡ₚ
    filter (λ id, ¬ interior leds id) (find_missing_ids leds total).
Proof.
  intros Hrun. apply NoDup_Permutation.
  - apply NoDup_find_missing_ids.
  - apply NoDup_filter, NoDup_find_missing_ids.
  - intros id.
    rewrite list_elem_of_filter, !elem_of_find_missing_ids,
      interior_bounded_both, (gap_after_sweep _ _ _ _ _ Hrun). tauto.
Qed.

(** The missing list shrinks by exactly the number of interior gaps. *)
Lemma length_find_missing_ids_after_sweep leds total leds' patched :
  for_missing (find_missing_ids leds total) leds 0 = Ok (leds', patched) →
  (length (find_missing_ids leds' total) + length (interior_gaps leds total)
   = length (find_missing_ids leds total))%nat.
Proof.
  intros Hrun.
  rewrite (find_missing_ids_after_sweep _ _ _ _ Hrun).
  pose proof (filter_app_complement (interior leds)
                (find_missing_ids leds total)) as Hperm.
  apply Permutation_length in Hperm. rewrite length_app in Hperm.
  unfold interior_gaps. lia.
Qed.

(** After a pass no interior gap is left. *)
Lemma interior_gaps_after_sweep leds total leds' patched :
  for_missing (find_missing_ids leds total) leds 0 = Ok (leds', patched) →
  interior_gaps leds' total = [].
Proof.
  intros Hrun. apply elem_of_nil_inv. intros id Hin.
  apply elem_of_interior_gaps in Hin as [Hgap Hb].
  apply (gap_after_sweep _ _ _ _ _ Hrun) in Hgap as [_ Hnb].
  apply Hnb. apply sweep_Ok in Hrun as (_ & Hg & _).
  by apply (grown_bounded_both leds leds').
Qed.

(** A dictionary with fewer entries than [total] misses an id of the
    range. *)
Lemma find_missing_ids_nonempty leds total :
  len leds < total → find_missing_ids leds total ≠ [].
Proof.
  intros Hlen Hnil. rewrite find_missing_ids_nil in Hnil.
  assert ((list_to_set (range total) : gset Z) ⊆ dom leds) as Hsub.
  { intros k. rewrite elem_of_list_to_set, elem_of_range, elem_of_dom.
    apply Hnil. }
  apply subseteq_size in Hsub.
  rewrite size_list_to_set in Hsub by apply NoDup_seqZ.
  unfold range in Hsub. rewrite length_seqZ, size_dom in Hsub.
  unfold len in Hlen. lia.
Qed.
End iteration.

(** ** The [while] loop *)

Section loop.
Implicit Types (leds : gmap Z led) (total max_it it : Z) (log : list message).

Lemma patch_loop_exit_size fuel total max_it it leds log :
  ¬ len leds < total →
  patch_loop fuel total max_it it leds log
  = Ok (PatchState leds it log ExitSize).
Proof.
  intros Hlen. destruct fuel; simpl;
    destruct (Z.ltb_spec (len leds) total); done || lia.
Qed.

Lemma patch_loop_exit_cap fuel total max_it it leds log :
  len leds < total → ¬ it < max_it →
  patch_loop fuel total max_it it leds log
  = Ok (PatchState leds it log ExitCap).
Proof.
  intros Hlen Hit. destruct fuel; simpl;
    destruct (Z.ltb_spec (len leds) total); try lia;
    destruct (Z.ltb_spec it max_it); done || lia.
Qed.

Lemma patch_loop_out_of_fuel total max_it it leds log :
  len leds < total → it < max_it →
  patch_loop 0 total max_it it leds log = OutOfFuel.
Proof.
  intros Hlen Hit. simpl.
  destruct (Z.ltb_spec (len leds) total); [|lia].
  destruct (Z.ltb_spec it max_it); done || lia.
Qed.

(** The loop body, once entered: the shape of the result is decided by the
    pass over the missing ids. *)
Lemma patch_loop_body fuel total max_it it leds log leds' patched :
  len leds < total → it < max_it →
  for_missing (find_missing_ids leds total) leds 0 = Ok (leds', patched) →
  patch_loop (S fuel) total max_it it leds log =
    if patched =? 0 then
      Ok (PatchState leds' (it + 1)
            (log ++ [MsgCouldNotPatch (length (find_missing_ids leds total))])
            BreakStalled)
    else
      patch_loop fuel total max_it (it + 1) leds'
        (log ++ [MsgIteration (it + 1) patched (size leds') total]).
Proof.
  intros Hlen Hit Hrun. simpl.
  destruct (Z.ltb_spec (len leds) total); [|lia].
  destruct (Z.ltb_spec it max_it); [|lia].
  pose proof (find_missing_ids_nonempty leds total Hlen) as Hne.
  destruct (find_missing_ids leds total) as [|id ids] eqn:Hmiss; [done|].
  rewrite Hrun. simpl. done.
Qed.

(** An iteration that finds no interior gap stalls. *)
Lemma patch_loop_stall fuel total max_it it leds log :
  len leds < total → it < max_it → interior_gaps leds total = [] →
  patch_loop (S fuel) total max_it it leds log =
    Ok (PatchState leds (it + 1)
          (log ++ [MsgCouldNotPatch (length (find_missing_ids leds total))])
          BreakStalled).
Proof.
  intros Hlen Hit Hnil.
  destruct (sweep_spec leds total) as (leds' & Hrun & _).
  rewrite Hnil in Hrun. simpl in Hrun.
  rewrite (patch_loop_body _ _ _ _ _ _ _ _ Hlen Hit Hrun). simpl.
  by rewrite (sweep_nothing _ _ _ Hrun).
Qed.

Lemma patch_loop_settle fuel total max_it it leds log :
  interior_gaps leds total = [] →
  patch_loop (S fuel) total max_it it leds log
  = Ok (settle total max_it it leds log).
Proof.
  intros Hnil. unfold settle.
  destruct (Z.ltb_spec (len leds) total);
    [|by apply patch_loop_exit_size; lia].
  destruct (Z.ltb_spec it max_it);
    [|by apply patch_loop_exit_cap; lia].
  by apply patch_loop_stall.
Qed.

(** The loop in closed form: at most one productive pass, then the loop
    settles. *)
Lemma patch_loop_two_passes fuel total max_it it leds log :
  len leds < total → it < max_it → interior_gaps leds total ≠ [] →
  ∃ leds',
    for_missing (find_missing_ids leds total) leds 0 =
      Ok (leds', Z.of_nat (length (interior_gaps leds total))) ∧
    patch_loop (S (S fuel)) total max_it it leds log =
      Ok (settle total max_it (it + 1) leds'
            (log ++ [MsgIteration (it + 1)
                       (Z.of_nat (length (interior_gaps leds total)))
                       (size leds') total])).
Proof.
  intros Hlen Hit Hne.
  destruct (sweep_spec leds total) as (leds' & Hrun & _).
  exists leds'. split; [done|].
  rewrite (patch_loop_body _ _ _ _ _ _ _ _ Hlen Hit Hrun).
  destruct (Z.eqb_spec (Z.of_nat (length (interior_gaps leds total))) 0)
    as [Hz|_].
  { exfalso. apply Hne, length_zero_iff_nil. lia. }
  apply patch_loop_settle. by eapply interior_gaps_after_sweep.
Qed.
End loop.

(** ** The engine in closed form *)

Section engine.
Implicit Types (leds : gmap Z led) (total max_it it : Z) (log : list message).

Lemma sweep_eq leds total leds' patched :
  for_missing (find_missing_ids leds total) leds 0 = Ok (leds', patched) →
  sweep leds total = leds'.
Proof. intros Hrun. unfold sweep. by rewrite Hrun. Qed.

Lemma sweep_run leds total :
  for_missing (find_missing_ids leds total) leds 0 =
    Ok (sweep leds total, Z.of_nat (length (interior_gaps leds total))).
Proof.
  destruct (sweep_spec leds total) as (leds' & Hrun & _).
  by rewrite (sweep_eq _ _ _ _ Hrun).
Qed.

(** Two units of fuel are enough for every input, whatever the cap. *)
Lemma patch_loop_closed fuel total max_it it leds log :
  (2 ≤ fuel)%nat ∨ ¬ it < max_it →
  patch_loop fuel total max_it it leds log
  = Ok (one_pass_then_settle total max_it it leds log).
Proof.
  intros Hfuel. unfold one_pass_then_settle. case_bool_decide as Hgo.
  - destruct Hgo as (Hlen & Hit & Hne).
    destruct fuel as [|[|fuel]]; [lia..|].
    destruct (patch_loop_two_passes fuel total max_it it leds log Hlen Hit Hne)
      as (leds' & Hrun & ->).
    by rewrite (sweep_eq _ _ _ _ Hrun).
  - destruct (decide (len leds < total)) as [Hlen|Hlen]; last first.
    { rewrite patch_loop_exit_size by done. unfold settle.
      by destruct (Z.ltb_spec (len leds) total); [lia|]. }
    destruct (decide (it < max_it)) as [Hit|Hit]; last first.
    { rewrite patch_loop_exit_cap by done. unfold settle.
      destruct (Z.ltb_spec (len leds) total); [|lia].
      by destruct (Z.ltb_spec it max_it); [lia|]. }
    destruct fuel as [|fuel]; [lia|].
    apply patch_loop_settle.
    destruct (decide (interior_gaps leds total = [])); [done|].
    exfalso. by apply Hgo.
Qed.

(** [patch_leds] always returns, and its result is the closed form followed
    by the closing message. *)
Lemma patch_leds_closed rows total max_it :
  let leds := load_leds_from_csv rows in
  let st := one_pass_then_settle total max_it 0 leds
              [MsgLoaded (size leds); MsgTarget total] in
  patch_leds rows total max_it =
    Ok (PatchState (st_leds st) (st_iteration st)
          (st_log st ++
             [if len (st_leds st) =? total then MsgSuccess
              else MsgOnlyPatched (size (st_leds st)) total])
          (st_exit st)).
Proof.
  intros leds st. unfold patch_leds. fold leds.
  rewrite patch_loop_closed; [done|].
  destruct (decide (0 < max_it)); [left|right; done]. lia.
Qed.

(** What [settle] does to the dictionary, the counter and the exit. *)
Lemma settle_leds total max_it it leds log :
  st_leds (settle total max_it it leds log) = leds.
Proof. unfold settle. by repeat case_match. Qed.

Lemma settle_iteration total max_it it leds log :
  it ≤ st_iteration (settle total max_it it leds log) ≤ it + 1.
Proof. unfold settle. repeat case_match; simpl; lia. Qed.

Lemma settle_exit_cap total max_it it leds log :
  st_exit (settle total max_it it leds log) = ExitCap → ¬ it < max_it.
Proof.
  unfold settle. destruct (Z.ltb_spec (len leds) total); [|done].
  destruct (Z.ltb_spec it max_it); [done|lia].
Qed.

Lemma settle_exit_not_break total max_it it leds log :
  st_exit (settle total max_it it leds log) ≠ BreakNoMissing.
Proof. unfold settle. by repeat case_match. Qed.

(** The dictionary of the closed form is the initial one or its sweep. *)
Lemma one_pass_then_settle_leds total max_it it leds log :
  let st := one_pass_then_settle total max_it it leds log in
  st_leds st = leds ∨
  (len leds < total ∧ it < max_it ∧ st_leds st = sweep leds total).
Proof.
  unfold one_pass_then_settle. case_bool_decide as Hgo; simpl.
  - right. rewrite settle_leds. naive_solver.
  - left. apply settle_leds.
Qed.
End engine.

(** ** Facts about runs of the engine *)

Section runs.
Implicit Types (leds : gmap Z led) (total max_it it : Z) (log : list message).

Lemma present_load_leds_from_csv rows k :
  present (load_leds_from_csv rows) k ↔ k ∈ row_index <$> rows.
Proof.
  unfold load_leds_from_csv.
  assert (∀ acc : gmap Z led,
    present (foldl (λ leds row, <[row_index row := row_to_led row]> leds)
               acc rows) k
    ↔ present acc k ∨ k ∈ row_index <$> rows) as Hgen.
  { induction rows as [|row rows IH]; intros acc; simpl.
    - rewrite elem_of_nil. tauto.
    - rewrite IH, present_insert, elem_of_cons. tauto. }
  rewrite Hgen. unfold present. rewrite lookup_empty.
  split; [intros [[? [=]]|?]; done|by right].
Qed.

(** A dictionary whose keys all lie in [[0, total)] has at most [total]
    entries. *)
Lemma len_le_total leds total :
  0 ≤ total → (∀ k, present leds k → 0 ≤ k < total) → len leds ≤ total.
Proof.
  intros Htot Hkeys.
  assert (dom leds ⊆ (list_to_set (range total) : gset Z)) as Hsub.
  { intros k. rewrite elem_of_list_to_set, elem_of_range, elem_of_dom.
    apply Hkeys. }
  apply subseteq_size in Hsub.
  rewrite size_list_to_set in Hsub by apply NoDup_seqZ.
  unfold range in Hsub. rewrite length_seqZ, size_dom in Hsub.
  unfold len. lia.
Qed.

Lemma sweep_grown leds total : grown leds (sweep leds total).
Proof. by destruct (sweep_Ok _ _ _ _ (sweep_run leds total)) as (_ & ? & _). Qed.

Lemma sweep_subseteq leds total : leds ⊆ sweep leds total.
Proof. apply sweep_grown. Qed.

Lemma present_sweep leds total k :
  present (sweep leds total) k ↔
  present leds k ∨ (gap leds total k ∧ bounded_both leds k).
Proof. by destruct (sweep_Ok _ _ _ _ (sweep_run leds total)) as (_ & _ & ?). Qed.

Lemma interior_gaps_sweep leds total :
  interior_gaps (sweep leds total) total = [].
Proof. eapply interior_gaps_after_sweep, sweep_run. Qed.

(** The dictionary the loop returns contains the one it started from, and
    its new keys are interior gaps of the one it started from. *)
Lemma one_pass_then_settle_grown total max_it it leds log :
  let st := one_pass_then_settle total max_it it leds log in
  leds ⊆ st_leds st ∧
  ∀ k, present (st_leds st) k →
       present leds k ∨ (gap leds total k ∧ bounded_both leds k).
Proof.
  intros st.
  destruct (one_pass_then_settle_leds total max_it it leds log)
    as [Heq|(_ & _ & Heq)]; fold st in Heq; rewrite Heq.
  - split; [done|]. by left.
  - split; [apply sweep_subseteq|]. intros k. by rewrite present_sweep.
Qed.

Lemma one_pass_then_settle_iteration total max_it it leds log :
  it ≤ st_iteration (one_pass_then_settle total max_it it leds log) ≤ it + 2.
Proof.
  unfold one_pass_then_settle. case_bool_decide.
  - pose proof (settle_iteration total max_it (it + 1) (sweep leds total)
      (log ++ [MsgIteration (it + 1)
                 (Z.of_nat (length (interior_gaps leds total)))
                 (size (sweep leds total)) total])). simpl. lia.
  - pose proof (settle_iteration total max_it it leds log). lia.
Qed.

Lemma one_pass_then_settle_exit_cap total max_it it leds log :
  st_exit (one_pass_then_settle total max_it it leds log) = ExitCap →
  ¬ it + 1 < max_it.
Proof.
  unfold one_pass_then_settle. case_bool_decide; simpl;
    intros Hcap%settle_exit_cap; lia.
Qed.

(** No interior gap is left exactly when every missing id lies outside the
    span of the keys. *)
Lemma interior_gaps_nil leds total :
  interior_gaps leds total = [] ↔
  Forall (outside_span leds) (find_missing_ids leds total).
Proof.
  rewrite Forall_forall. split.
  - intros Hnil id Hin.
    pose proof Hin as [_ Hnone]%elem_of_find_missing_ids.
    apply outside_span_iff; [done|]. intros Hb.
    assert (id ∈ interior_gaps leds total) as Hi.
    { apply elem_of_interior_gaps. split; [|done].
      by apply elem_of_find_missing_ids. }
    rewrite Hnil in Hi. by apply elem_of_nil in Hi.
  - intros Hall. apply elem_of_nil_inv. intros id Hin.
    apply elem_of_interior_gaps in Hin as [Hgap Hb].
    pose proof Hgap as [_ Hnone].
    apply elem_of_find_missing_ids, Hall in Hgap.
    by apply outside_span_iff in Hgap.
Qed.

End runs.

(** ** The loop heads of a run *)

Section heads.
Implicit Types (leds : gmap Z led) (total max_it it : Z) (s : loop_state).

Lemma iteration_step_inv total max_it s s' :
  iteration_step total max_it s s' →
  len s.2 < total ∧ s.1 < max_it ∧ interior_gaps s.2 total ≠ [] ∧
  s' = (s.1 + 1, sweep s.2 total).
Proof.
  intros [it leds leds' patched Hlen Hit Hmiss Hrun Hp]. simpl.
  split_and!; [done..| |].
  - intros Hnil. apply sweep_Ok in Hrun as (Hlen' & _).
    rewrite Hnil in Hlen'. simpl in Hlen'. lia.
  - by rewrite (sweep_eq _ _ _ _ Hrun).
Qed.

Lemma iteration_step_make total max_it it leds :
  len leds < total → it < max_it → interior_gaps leds total ≠ [] →
  iteration_step total max_it (it, leds) (it + 1, sweep leds total).
Proof.
  intros Hlen Hit Hne.
  apply (iteration_step_intro _ _ _ _ _
           (Z.of_nat (length (interior_gaps leds total)))); try done.
  - by apply find_missing_ids_nonempty.
  - apply sweep_run.
  - intros Hz. apply Hne, length_zero_iff_nil. lia.
Qed.

(** A productive pass is never followed by a second one. *)
Lemma iteration_step_once total max_it s s' s'' :
  iteration_step total max_it s s' → ¬ iteration_step total max_it s' s''.
Proof.
  intros (_ & _ & _ & ->)%iteration_step_inv
         (_ & _ & Hne & _)%iteration_step_inv.
  simpl in Hne. by rewrite interior_gaps_sweep in Hne.
Qed.

(** The loop is at its first head, or at the head after the one productive
    pass. *)
Lemma loop_head_cases total max_it leds0 s :
  loop_head total max_it leds0 s ↔
  s = (0, leds0) ∨
  (s = (1, sweep leds0 total) ∧
   len leds0 < total ∧ 0 < max_it ∧ interior_gaps leds0 total ≠ []).
Proof.
  unfold loop_head. split.
  - intros Hrtc. apply rtc_inv in Hrtc as [->|(s1 & Hstep & Hrtc)]; [by left|].
    right. apply rtc_inv in Hrtc as [->|(s2 & Hstep2 & _)].
    + apply iteration_step_inv in Hstep as (? & ? & ? & ->). done.
    + by apply (iteration_step_once _ _ _ _ s2) in Hstep.
  - intros [->|(-> & Hlen & Hit & Hne)]; [done|].
    apply rtc_once. by apply (iteration_step_make total max_it 0 leds0).
Qed.
End heads.

(** ** Inside one pass *)

Section inside_pass.
Implicit Types (leds : gmap Z led) (total id k : Z).

Lemma for_missing_app pre post leds patched :
  for_missing (pre ++ post) leds patched =
    (st ←r for_missing pre leds patched; for_missing post st.1 st.2).
Proof.
  revert leds patched. induction pre as [|id pre IH]; intros leds patched.
  - done.
  - simpl. destruct (patch_one leds patched id) as [[leds1 p1]| |]; simpl;
      [apply IH|done..].
Qed.

(** The dictionary at the moment the pass has dealt with the ids [pre] and
    is about to visit the ids [post]. *)
Lemma sweep_prefix leds total pre post :
  find_missing_ids leds total = pre ++ post →
  ∃ mid,
    for_missing pre leds 0 =
      Ok (mid, Z.of_nat (length (filter (interior leds) pre))) ∧
    leds ⊆ mid ∧ mid ⊆ sweep leds total ∧
    ∀ k, present mid k ↔ present leds k ∨ (k ∈ pre ∧ bounded_both leds k).
Proof.
  intros Hsplit.
  pose proof (NoDup_find_missing_ids leds total) as Hnd.
  rewrite Hsplit in Hnd. apply NoDup_app in Hnd as (Hnd1 & Hdisj & Hnd2).
  assert (∀ id, id ∈ pre ++ post → leds !! id = None) as Habs.
  { intros id Hin. rewrite <- Hsplit in Hin.
    by apply elem_of_find_missing_ids in Hin as [_ ?]. }
  destruct (for_missing_spec leds pre leds 0)
    as (mid & Hrun1 & Hg1 & Hsub1 & Hkeys1).
  { apply grown_refl. }
  { done. }
  { intros id Hin. apply Habs, elem_of_app. by left. }
  destruct (for_missing_spec leds post mid
              (0 + Z.of_nat (length (filter (interior leds) pre))))
    as (fin & Hrun2 & _ & Hsub2 & _).
  { done. }
  { done. }
  { intros id Hin. apply not_present. rewrite Hkeys1.
    intros [Hk|[Hpre _]].
    - apply not_present in Hk; [done|]. apply Habs, elem_of_app. by right.
    - by apply (Hdisj id). }
  exists mid. rewrite Z.add_0_l in Hrun1. split_and!; [done..| |done].
  assert (sweep leds total = fin) as ->; [|done].
  unfold sweep. rewrite Hsplit, for_missing_app, Hrun1. simpl.
  rewrite Z.add_0_l in Hrun2. by rewrite Hrun2.
Qed.

Lemma outside_span_not_patched leds total id :
  outside_span leds id →
  ¬ (present leds id ∨ (gap leds total id ∧ bounded_both leds id)).
Proof.
  intros Hout [Hk|[[_ Hnone] Hb]].
  - apply outside_span_present in Hout as [Hlo|Hhi].
    + specialize (Hlo id Hk). lia.
    + specialize (Hhi id Hk). lia.
  - by apply outside_span_iff in Hout.
Qed.

(** One execution of the body of the pass leaves every key other than
    [led_id] as it found it. *)
Lemma patch_one_frame leds patched id :
  ∃ leds' patched',
    patch_one leds patched id = Ok (leds', patched') ∧
    ∀ k, k ≠ id → leds' !! k = leds !! k.
Proof.
  destruct (find_nearest_prev_led leds id) as [p|] eqn:Hp;
    [destruct (find_nearest_next_led leds id) as [n|] eqn:Hn|].
  - assert (bounded_both leds id) as Hb.
    { split.
      - apply find_nearest_prev_led_is_Some. by rewrite Hp.
      - apply find_nearest_next_led_is_Some. by rewrite Hn. }
    destruct (patch_one_bounded leds patched id Hb)
      as (p' & n' & pl & nl & _ & _ & _ & _ & ->).
    eexists _, _. split; [done|].
    intros k Hk. by rewrite lookup_insert_ne.
  - unfold patch_one. rewrite Hp, Hn. by eexists _, _.
  - unfold patch_one. rewrite Hp. by eexists _, _.
Qed.

(** In the middle of a pass the keys added so far are ids already visited,
    the ids still to be visited are not yet keys, and the keys added from
    there to the end of the pass are among them. *)
Lemma sweep_prefix_keys leds total pre post mid patched :
  find_missing_ids leds total = pre ++ post →
  for_missing pre leds 0 = Ok (mid, patched) →
  (∀ k, present mid k → present leds k ∨ k ∈ pre) ∧
  (∀ id, id ∈ post → mid !! id = None) ∧
  (∀ k, present (sweep leds total) k → present mid k ∨ k ∈ post).
Proof.
  intros Hsplit Hrun.
  destruct (sweep_prefix leds total pre post Hsplit)
    as (mid' & Hrun' & _ & _ & Hkeys).
  rewrite Hrun in Hrun'. injection Hrun' as <- _.
  pose proof (NoDup_find_missing_ids leds total) as Hnd.
  rewrite Hsplit in Hnd. apply NoDup_app in Hnd as (_ & Hdisj & _).
  assert (∀ id, id ∈ pre ++ post ↔ gap leds total id) as Hmiss.
  { intros id. rewrite <- Hsplit. apply elem_of_find_missing_ids. }
  split_and!.
  - intros k Hk. apply Hkeys in Hk as [Hk|[Hk _]]; [by left|by right].
  - intros id Hin. apply not_present. rewrite Hkeys.
    intros [Hk|[Hpre _]].
    + assert (gap leds total id) as [_ Hnone]
        by (apply Hmiss, elem_of_app; by right).
      by apply not_present in Hnone.
    + by apply (Hdisj id).
  - intros k. rewrite present_sweep, Hkeys.
    intros [Hk|[Hgap Hb]]; [by left; left|].
    apply Hmiss, elem_of_app in Hgap as [Hpre|Hpost]; [|by right].
    left. by right.
Qed.
End inside_pass.

(** ** Worked runs *)

(** The stall scenario: with the ids 2 and 4 and [total_leds = 5], id 3 is
    patched in the first iteration, the second iteration patches nothing and
    stalls, and ids 0 and 1 stay missing. *)
Example run_2_4_stalls :
  ∃ st, patch_leds rows_2_4 5 default_max_iterations = Ok st ∧
        st_exit st = BreakStalled ∧ st_iteration st = 2 ∧
        keys (st_leds st) ≡ₚ [2; 3; 4] ∧
        st_leds st !! 3 = Some (Led 2 2 2 0 0 0 0) ∧
        st_log st = [MsgLoaded 2; MsgTarget 5; MsgIteration 1 1 3 5;
                     MsgCouldNotPatch 2; MsgOnlyPatched 3 5].
Proof.
  eexists. split; [vm_compute; reflexivity|].
  split_and!; try (by vm_compute).
  apply NoDup_Permutation; [apply NoDup_keys|by repeat constructor; set_solver|].
  intros k. vm_compute keys. set_solver.
Qed.

(** The same input with [max_iterations = 1]: the loop is left through the
    cap test, with the same dictionary. *)
Example run_2_4_cap_1 :
  ∃ st, patch_leds rows_2_4 5 1 = Ok st ∧
        st_exit st = ExitCap ∧ st_iteration st = 1 ∧
        st_leds st !! 3 = Some (Led 2 2 2 0 0 0 0) ∧
        st_log st = [MsgLoaded 2; MsgTarget 5; MsgIteration 1 1 3 5;
                     MsgOnlyPatched 3 5].
Proof. eexists. split; [vm_compute; reflexivity|]. split_and!; by vm_compute. Qed.

(** A complete dictionary: nothing is done. *)
Example run_complete :
  ∃ st, patch_leds [mk_row 0 1 2 3; mk_row 1 4 5 6] 2 default_max_iterations
        = Ok st ∧
        st_exit st = ExitSize ∧ st_iteration st = 0 ∧
        st_leds st = load_leds_from_csv [mk_row 0 1 2 3; mk_row 1 4 5 6] ∧
        st_log st = [MsgLoaded 2; MsgTarget 2; MsgSuccess].
Proof. eexists. split; [vm_compute; reflexivity|]. split_and!; by vm_compute. Qed.

(** * The properties stated by the specification *)

(** ** GapFinder *)

(** C8. [find_missing_ids leds total] contains exactly the ids of
    [[0, total)] that have no entry in [leds], it lists them in strictly
    ascending order, and it is empty if and only if [leds] has an entry for
    every id of [[0, total)].  The function only reads the dictionary: the
    loop goes on with the very [leds] it passed in. *)
Theorem find_missing_ids_correct (leds : gmap Z led) (total : Z) :
  (∀ id, id ∈ find_missing_ids leds total ↔
         0 ≤ id < total ∧ leds !! id = None) ∧
  StronglySorted Z.lt (find_missing_ids leds total) ∧
  find_missing_ids leds total
  = filter (λ id, leds !! id = None) (range total) ∧
  (find_missing_ids leds total = [] ↔
   ∀ id, 0 ≤ id < total → is_Some (leds !! id)).
Proof.
  split_and!.
  - intros id. apply elem_of_find_missing_ids.
  - apply find_missing_ids_ascending.
  - apply find_missing_ids_filter_range.
  - apply find_missing_ids_nil.
Qed.

(** ** NeighborLocator *)

(** C9. [find_nearest_prev_led leds id] is the maximum key of [leds]
    strictly below [id], [find_nearest_next_led leds id] the minimum key
    strictly above it; each is [None] exactly when [leds] has no such key, as
    when [id] lies below, respectively above, every key.  Both are functions
    of the dictionary they are called with. *)
Theorem nearest_neighbours_correct (leds : gmap Z led) (id : Z) :
  (∀ k, find_nearest_prev_led leds id = Some k ↔
        is_Some (leds !! k) ∧ k < id ∧
        ∀ k', is_Some (leds !! k') → k' < id → k' ≤ k) ∧
  (find_nearest_prev_led leds id = None ↔
   ¬ ∃ k, is_Some (leds !! k) ∧ k < id) ∧
  (∀ k, find_nearest_next_led leds id = Some k ↔
        is_Some (leds !! k) ∧ id < k ∧
        ∀ k', is_Some (leds !! k') → id < k' → k ≤ k') ∧
  (find_nearest_next_led leds id = None ↔
   ¬ ∃ k, is_Some (leds !! k) ∧ id < k) ∧
  ((∀ k, is_Some (leds !! k) → id < k) →
   find_nearest_prev_led leds id = None) ∧
  ((∀ k, is_Some (leds !! k) → k < id) →
   find_nearest_next_led leds id = None).
Proof.
  split_and!.
  - intros k. apply find_nearest_prev_led_Some.
  - apply find_nearest_prev_led_None.
  - intros k. apply find_nearest_next_led_Some.
  - apply find_nearest_next_led_None.
  - intros Hall. apply find_nearest_prev_led_None.
    intros (k & Hk & Hlt). specialize (Hall k Hk). lia.
  - intros Hall. apply find_nearest_next_led_None.
    intros (k & Hk & Hlt). specialize (Hall k Hk). lia.
Qed.

(** ** PatchEngine: size and key range *)

(** C1, as stated, fails: the keys of the file are kept whatever they are,
    and [total_leds] is not checked.  With the rows 5 and 7 and
    [total_leds = 1] the loop is not even entered, and the result has two
    entries, none of them in [[0, 1)]; with no row at all and
    [total_leds = -1] the result is empty, which is more than -1 entries. *)
Lemma patch_leds_keeps_foreign_keys :
  (∃ st, patch_leds rows_5_7 1 default_max_iterations = Ok st ∧
         ¬ (len (st_leds st) ≤ 1) ∧
         is_Some (st_leds st !! 5) ∧ ¬ (0 ≤ 5 < 1)) ∧
  (∃ st, patch_leds [] (-1) default_max_iterations = Ok st ∧
         ¬ (len (st_leds st) ≤ -1)).
Proof.
  split.
  - eexists. split; [vm_compute; reflexivity|]. simpl.
    split_and!; [|by eexists|lia].
    vm_compute. intros H. by apply H.
  - eexists. split; [vm_compute; reflexivity|]. simpl.
    vm_compute. intros H. by apply H.
Qed.

(** C1, amended.  When [total_leds] is not negative and every index of
    the file lies in [[0, total_leds)], the dictionary returned by
    [patch_leds] has at most [total_leds] entries and all its keys lie in
    [[0, total_leds)]. *)
Theorem patch_leds_keys_in_range (rows : list csv_row) (total max_it : Z) :
  0 ≤ total →
  Forall (λ row, 0 ≤ row_index row < total) rows →
  ∃ st, patch_leds rows total max_it = Ok st ∧
        len (st_leds st) ≤ total ∧
        ∀ k, is_Some (st_leds st !! k) → 0 ≤ k < total.
Proof.
  intros Htot Hrows. rewrite patch_leds_closed. eexists. split; [done|].
  simpl. set (leds := load_leds_from_csv rows).
  destruct (one_pass_then_settle_grown total max_it 0 leds
              [MsgLoaded (size leds); MsgTarget total]) as [_ Hkeys].
  assert (∀ k, present leds k → 0 ≤ k < total) as Hin.
  { intros k Hk. apply present_load_leds_from_csv in Hk.
    apply list_elem_of_fmap in Hk as (row & -> & Hrow).
    rewrite Forall_forall in Hrows. by apply Hrows. }
  assert (∀ k, present (st_leds (one_pass_then_settle total max_it 0 leds
            [MsgLoaded (size leds); MsgTarget total])) k → 0 ≤ k < total)
    as Hall.
  { intros k [Hk|[[Hk _] _]]%Hkeys; [by apply Hin|done]. }
  split; [by apply len_le_total|done].
Qed.

Lemma patch_leds_keys_in_range_witness :
  (0 ≤ 6 ∧ Forall (λ row, 0 ≤ row_index row < 6) rows_0_5) ∧
  ∃ st, patch_leds rows_0_5 6 default_max_iterations = Ok st ∧
        len (st_leds st) ≤ 6 ∧
        ∀ k, is_Some (st_leds st !! k) → 0 ≤ k < 6.
Proof.
  assert (0 ≤ 6) as H0 by lia.
  assert (Forall (λ row, 0 ≤ row_index row < 6) rows_0_5) as Hrows
    by (repeat constructor; simpl; lia).
  split; [done|].
  exact (patch_leds_keys_in_range rows_0_5 6 default_max_iterations H0 Hrows).
Defined.

(** ** PatchEngine: edge gaps *)

(** C6. An id smaller than every key of the loaded dictionary, or larger
    than every key of it, has no entry in the dictionary at any head of the
    loop nor in the dictionary [patch_leds] returns, whatever
    [total_leds] and [max_iterations] are.  More generally the pass of an
    iteration, started on any dictionary, inserts no id that lies outside
    the span of the keys of that dictionary. *)
Theorem edge_gaps_never_patched (rows : list csv_row) (total max_it id : Z) :
  outside_span (load_leds_from_csv rows) id →
  ∃ st, patch_leds rows total max_it = Ok st ∧
        st_leds st !! id = None ∧
        (∀ s, loop_head total max_it (load_leds_from_csv rows) s →
              s.2 !! id = None) ∧
        (∀ leds id', outside_span leds id' →
           ∃ leds' patched,
             for_missing (find_missing_ids leds total) leds 0
             = Ok (leds', patched) ∧
             leds' !! id' = None).
Proof.
  intros Hout. rewrite patch_leds_closed. eexists. split; [done|]. simpl.
  set (leds := load_leds_from_csv rows) in *.
  pose proof (outside_span_not_patched leds total id Hout) as Hnot.
  split_and!.
  - apply not_present. intros Hk. apply Hnot.
    by apply (one_pass_then_settle_grown total max_it 0 leds) in Hk.
  - intros s [->|(-> & _)]%loop_head_cases; simpl; apply not_present.
    + intros Hk. apply Hnot. by left.
    + intros Hk. apply Hnot. by apply present_sweep in Hk.
  - intros leds1 id' Hout'. eexists (sweep leds1 total), _.
    split; [apply sweep_run|]. apply not_present. intros Hk.
    apply (outside_span_not_patched leds1 total id' Hout').
    by apply present_sweep in Hk.
Qed.

Lemma edge_gaps_never_patched_witness :
  outside_span (load_leds_from_csv rows_2_4) 0 ∧
  ∃ st, patch_leds rows_2_4 5 default_max_iterations = Ok st ∧
        st_leds st !! 0 = None ∧
        (∀ s, loop_head 5 default_max_iterations
                (load_leds_from_csv rows_2_4) s →
              s.2 !! 0 = None) ∧
        (∀ leds id', outside_span leds id' →
           ∃ leds' patched,
             for_missing (find_missing_ids leds 5) leds 0
             = Ok (leds', patched) ∧
             leds' !! id' = None).
Proof.
  assert (outside_span (load_leds_from_csv rows_2_4) 0)
    as Hout by (apply (bool_decide_unpack _); vm_compute; exact I).
  split; [done|].
  exact (edge_gaps_never_patched rows_2_4 5 default_max_iterations 0 Hout).
Defined.

(** ** PatchEngine: frame *)

(** C7. Every record of the loaded dictionary is found unchanged, under
    the same id, in the dictionary [patch_leds] returns, and every other key
    of that dictionary is one of the missing ids of the loaded dictionary:
    entries are only ever added, and only at missing ids.  The same holds of
    the entries the engine has inserted itself: every record present at any
    head of the loop is unchanged in the result.  Inside a pass, one
    execution of the body touches no key but [led_id]; at any moment of the
    pass the keys added so far are ids already visited, the ids still to be
    visited are not yet keys (so no insertion overwrites an entry), every
    record present at that moment is still there, unchanged, when the pass
    ends, and the keys added until then are ids visited in between. *)
Theorem existing_records_unchanged (rows : list csv_row) (total max_it : Z) :
  ∃ st, patch_leds rows total max_it = Ok st ∧
        (∀ k v, load_leds_from_csv rows !! k = Some v →
                st_leds st !! k = Some v) ∧
        (∀ k, present (st_leds st) k →
              present (load_leds_from_csv rows) k ∨
              k ∈ find_missing_ids (load_leds_from_csv rows) total) ∧
        (∀ s k v, loop_head total max_it (load_leds_from_csv rows) s →
                  s.2 !! k = Some v → st_leds st !! k = Some v) ∧
        (∀ leds patched led_id,
           ∃ leds' patched',
             patch_one leds patched led_id = Ok (leds', patched') ∧
             ∀ k, k ≠ led_id → leds' !! k = leds !! k) ∧
        (∀ leds pre post,
           find_missing_ids leds total = pre ++ post →
           ∃ mid patched end_ patched',
             for_missing pre leds 0 = Ok (mid, patched) ∧
             for_missing (pre ++ post) leds 0 = Ok (end_, patched') ∧
             (∀ k v, leds !! k = Some v → mid !! k = Some v) ∧
             (∀ k v, mid !! k = Some v → end_ !! k = Some v) ∧
             (∀ k, present mid k → present leds k ∨ k ∈ pre) ∧
             (∀ led_id, led_id ∈ post → mid !! led_id = None) ∧
             (∀ k, present end_ k → present mid k ∨ k ∈ post)).
Proof.
  rewrite patch_leds_closed. eexists. split; [done|]. simpl.
  set (leds0 := load_leds_from_csv rows).
  set (st := one_pass_then_settle total max_it 0 leds0 _).
  destruct (one_pass_then_settle_grown total max_it 0 leds0
              [MsgLoaded (size leds0); MsgTarget total]) as [Hsub Hnew].
  fold st in Hsub, Hnew. split_and!.
  - intros k v Hv. by eapply lookup_weaken.
  - intros k Hk. apply Hnew in Hk as [Hk|[Hgap _]]; [by left|].
    right. by apply elem_of_find_missing_ids.
  - intros s k v [->|(-> & Hlen & Hit & Hne)]%loop_head_cases Hv; simpl in Hv.
    + by eapply lookup_weaken.
    + destruct (one_pass_then_settle_leds total max_it 0 leds0
                  [MsgLoaded (size leds0); MsgTarget total])
        as [Heq|(_ & _ & Heq)]; fold st in Heq; [|by rewrite Heq].
      exfalso. revert Heq. unfold st, one_pass_then_settle.
      rewrite bool_decide_eq_true_2 by done.
      rewrite settle_leds. intros Heq.
      assert (interior_gaps leds0 total = []); [|done].
      rewrite <- Heq. apply interior_gaps_sweep.
  - intros leds patched led_id. apply patch_one_frame.
  - intros leds pre post Hsplit.
    destruct (sweep_prefix leds total pre post Hsplit)
      as (mid & Hrun & Hsub1 & Hsub2 & _).
    destruct (sweep_prefix_keys leds total pre post mid _ Hsplit Hrun)
      as (Hk1 & Hk2 & Hk3).
    exists mid, (Z.of_nat (length (filter (interior leds) pre))),
      (sweep leds total), (Z.of_nat (length (interior_gaps leds total))).
    split_and!; [done| | | |done..].
    + rewrite <- Hsplit. apply sweep_run.
    + intros k v Hv. by eapply lookup_weaken.
    + intros k v Hv. by eapply lookup_weaken.
Qed.

(** ** PatchEngine: convergence *)

(** C10. The pass of an iteration patches every interior gap of the
    dictionary it starts from and leaves none behind; so whenever the first
    iteration runs, every interior gap of the loaded dictionary is present in
    the result.  [patch_leds] therefore counts at most two iterations, and
    with [max_iterations >= 2] the loop is never left through its
    [iteration < max_iterations] test: it is left through the stalled
    [break], or through the size test with the counter still below the cap. *)
Theorem at_most_two_iterations (rows : list csv_row) (total max_it : Z) :
  ∃ st, patch_leds rows total max_it = Ok st ∧
        (∀ leds, ∃ leds' patched,
           for_missing (find_missing_ids leds total) leds 0
           = Ok (leds', patched) ∧
           (∀ id, gap leds total id → bounded_both leds id →
                  is_Some (leds' !! id)) ∧
           interior_gaps leds' total = []) ∧
        (len (load_leds_from_csv rows) < total → 0 < max_it →
         ∀ id, gap (load_leds_from_csv rows) total id →
               bounded_both (load_leds_from_csv rows) id →
               is_Some (st_leds st !! id)) ∧
        0 ≤ st_iteration st ≤ 2 ∧
        (2 ≤ max_it →
         st_exit st = BreakStalled ∨
         (st_exit st = ExitSize ∧ st_iteration st < max_it)).
Proof.
  rewrite patch_leds_closed. eexists. split; [done|]. simpl.
  set (leds0 := load_leds_from_csv rows).
  set (log0 := [MsgLoaded (size leds0); MsgTarget total]).
  split_and!.
  - intros leds. eexists (sweep leds total), _. split; [apply sweep_run|].
    split; [|apply interior_gaps_sweep].
    intros id Hgap Hb. apply present_sweep. by right.
  - intros Hlen Hit id Hgap Hb.
    assert (interior_gaps leds0 total ≠ []) as Hne.
    { intros Hnil.
      assert (id ∈ interior_gaps leds0 total) as Hin
        by (by apply elem_of_interior_gaps).
      rewrite Hnil in Hin. by apply elem_of_nil in Hin. }
    unfold one_pass_then_settle. rewrite bool_decide_eq_true_2 by done.
    rewrite settle_leds. apply present_sweep. by right.
  - apply one_pass_then_settle_iteration.
  - apply one_pass_then_settle_iteration.
  - intros Hmax. unfold one_pass_then_settle, settle.
    repeat (case_bool_decide || case_match); simpl; try (by left);
      try (right; split; [done|lia]); lia.
Qed.

(** C5. [patch_leds] returns for every input, and the loop needs no more
    than two trips through its body however large [max_iterations] is.  The
    pass of an iteration patches exactly the interior gaps of the dictionary
    it starts from, so that the list of missing ids gets shorter by their
    number.  Entered with a dictionary whose missing ids all lie outside the
    span of its keys, the loop is left at once, with that dictionary; so it
    is when [iteration] has reached [max_iterations]. *)
Theorem patch_leds_terminates (rows : list csv_row) (total max_it : Z) :
  (∃ st, patch_leds rows total max_it = Ok st) ∧
  (∀ fuel it leds log, (2 ≤ fuel)%nat →
     ∃ st, patch_loop fuel total max_it it leds log = Ok st) ∧
  (∀ leds, ∃ leds',
     for_missing (find_missing_ids leds total) leds 0
     = Ok (leds', Z.of_nat (length (interior_gaps leds total))) ∧
     (length (find_missing_ids leds' total)
      + length (interior_gaps leds total)
      = length (find_missing_ids leds total))%nat) ∧
  (∀ fuel it leds log,
     Forall (outside_span leds) (find_missing_ids leds total) →
     ∃ st, patch_loop (S fuel) total max_it it leds log = Ok st ∧
           st_leds st = leds ∧ it ≤ st_iteration st ≤ it + 1) ∧
  (∀ fuel it leds log,
     max_it ≤ it →
     ∃ st, patch_loop fuel total max_it it leds log = Ok st ∧
           st_leds st = leds ∧ st_iteration st = it).
Proof.
  split_and!.
  - rewrite patch_leds_closed. by eexists.
  - intros fuel it leds log Hfuel. rewrite patch_loop_closed by (by left).
    by eexists.
  - intros leds. exists (sweep leds total). split; [apply sweep_run|].
    eapply length_find_missing_ids_after_sweep, sweep_run.
  - intros fuel it leds log Hout%interior_gaps_nil.
    rewrite patch_loop_settle by done. eexists. split; [done|].
    split; [apply settle_leds|apply settle_iteration].
  - intros fuel it leds log Hcap.
    rewrite patch_loop_closed by (right; lia).
    eexists. split; [done|].
    unfold one_pass_then_settle. rewrite bool_decide_eq_false_2 by lia.
    unfold settle. destruct (len leds <? total); [|done].
    by destruct (Z.ltb_spec it max_it); [lia|].
Qed.

(** ** PatchEngine: the stalled exit *)




(** ** PatchEngine: propagation inside an iteration *)

(** C4.  The pass inserts into the dictionary it is reading.  On the
    dictionary with the ids 0 and 5 and [total_leds = 6], id 1 is patched
    first; when id 2 is visited, the dictionary handed to
    [find_nearest_prev_led] already holds id 1, which was missing when the
    iteration began, and id 1 is the neighbour that is found (at the start of
    the iteration it would have been id 0). *)
Theorem pass_sees_its_own_insertions :
  ∃ (leds mid : gmap Z led) (total id k patched : Z) (pre post : list Z),
    find_missing_ids leds total = pre ++ id :: post ∧
    for_missing pre leds 0 = Ok (mid, patched) ∧
    for_missing (find_missing_ids leds total) leds 0 =
      (st ←r patch_one mid patched id; for_missing post st.1 st.2) ∧
    find_nearest_prev_led mid id = Some k ∧
    k ∈ pre ∧ leds !! k = None ∧ is_Some (mid !! k) ∧
    find_nearest_prev_led leds id ≠ Some k.
Proof.
  eexists (load_leds_from_csv rows_0_5), _, 6, 2, 1, _, [1], [3; 4].
  split_and!.
  - by vm_compute.
  - vm_compute. reflexivity.
  - by vm_compute.
  - by vm_compute.
  - by left.
  - by vm_compute.
  - by eexists.
  - by vm_compute.
Qed.

(** ** Interpolator *)

(** C2, as stated, fails: the weight is a binary64 number, and for ids far
    enough apart the quotient rounds to [1.0].  Between the ids 0 and [2^60]
    the id [2^60 - 1] gets the weight [1.0], which is not below one, and the
    record of the upper neighbour's position. *)
Lemma interpolate_led_fraction_one :
  load_leds_from_csv rows_far_apart !! 0 = Some (Led 0 0 0 0 0 0 0) ∧
  load_leds_from_csv rows_far_apart !! (2 ^ 60) = Some (Led 10 0 0 0 0 0 0) ∧
  0 < 2 ^ 60 - 1 < 2 ^ 60 ∧
  int_truediv (2 ^ 60 - 1 - 0) (2 ^ 60 - 0) = Ok 1%float ∧
  (1 <? 1)%float = false ∧
  interpolate_led (load_leds_from_csv rows_far_apart) (2 ^ 60 - 1) 0 (2 ^ 60)
  = Ok (Led 10 0 0 0 0 0 0).
Proof. split_and!; by vm_compute. Qed.

(** C2, amended.  For ids [prev_id < led_id < next_id] with [prev_id] and
    [next_id] present, [interpolate_led] returns a record: each coordinate
    is [prev * (1 - fraction) + next * fraction] in binary64 arithmetic,
    where [fraction] is the quotient [(led_id - prev_id) / (next_id -
    prev_id)] rounded to binary64; [xn], [yn], [zn] and [error] are [0.0].
    The weight lies strictly between 0 and 1 whenever [next_id - prev_id] is
    below [2^53].  With (0,0,0) at id 0, (10,0,0) at id 5 and
    [total_leds = 6], [patch_leds] gives the ids 1, 2, 3, 4 the [x]
    coordinates 2, 4, 6, 8, with every other field zero. *)
Theorem interpolate_led_correct (leds : gmap Z led)
    (led_id prev_id next_id : Z) (prev_led next_led : led) :
  leds !! prev_id = Some prev_led →
  leds !! next_id = Some next_led →
  prev_id < led_id < next_id →
  (∃ fraction,
     int_truediv (led_id - prev_id) (next_id - prev_id) = Ok fraction ∧
     (next_id - prev_id < 2 ^ 53 →
      (0 <? fraction)%float = true ∧ (fraction <? 1)%float = true) ∧
     interpolate_led leds led_id prev_id next_id =
       Ok {| led_x :=
               (led_x prev_led * (1 - fraction) + led_x next_led * fraction)
               %float;
             led_y :=
               (led_y prev_led * (1 - fraction) + led_y next_led * fraction)
               %float;
             led_z :=
               (led_z prev_led * (1 - fraction) + led_z next_led * fraction)
               %float;
             led_xn := 0%float;
             led_yn := 0%float;
             led_zn := 0%float;
             led_error := 0%float |}) ∧
  (∃ st, patch_leds rows_0_5 6 default_max_iterations = Ok st ∧
         st_leds st !! 1 = Some (Led 2 0 0 0 0 0 0) ∧
         st_leds st !! 2 = Some (Led 4 0 0 0 0 0 0) ∧
         st_leds st !! 3 = Some (Led 6 0 0 0 0 0 0) ∧
         st_leds st !! 4 = Some (Led 8 0 0 0 0 0 0)).
Proof.
  intros Hp Hn Hlt. split.
  - exists (SF2Prim (int_quotient_SF (led_id - prev_id) (next_id - prev_id))).
    split; [apply int_truediv_ok; lia|]. split.
    + intros Hgap.
      destruct (int_truediv_fraction (led_id - prev_id) (next_id - prev_id))
        as (f & Hf & Hbounds); [lia..|].
      rewrite int_truediv_ok in Hf by lia. by injection Hf as <-.
    + by rewrite (interpolate_led_ok leds led_id prev_id next_id
                    prev_led next_led).
  - eexists. split; [vm_compute; reflexivity|]. split_and!; by vm_compute.
Qed.

Lemma interpolate_led_correct_witness :
  (load_leds_from_csv rows_0_5 !! 0 = Some (Led 0 0 0 0 0 0 0) ∧
   load_leds_from_csv rows_0_5 !! 5 = Some (Led 10 0 0 0 0 0 0) ∧
   0 < 2 < 5) ∧
  ∃ fraction,
    int_truediv (2 - 0) (5 - 0) = Ok fraction ∧
    (5 - 0 < 2 ^ 53 →
     (0 <? fraction)%float = true ∧ (fraction <? 1)%float = true) ∧
    interpolate_led (load_leds_from_csv rows_0_5) 2 0 5 =
      Ok {| led_x := (0 * (1 - fraction) + 10 * fraction)%float;
            led_y := (0 * (1 - fraction) + 0 * fraction)%float;
            led_z := (0 * (1 - fraction) + 0 * fraction)%float;
            led_xn := 0%float;
            led_yn := 0%float;
            led_zn := 0%float;
            led_error := 0%float |}.
Proof.
  assert (load_leds_from_csv rows_0_5 !! 0 = Some (Led 0 0 0 0 0 0 0))
    as Hp by (by vm_compute).
  assert (load_leds_from_csv rows_0_5 !! 5 = Some (Led 10 0 0 0 0 0 0))
    as Hn by (by vm_compute).
  assert (0 < 2 < 5) as Hlt by lia.
  split; [done|].
  exact (proj1 (interpolate_led_correct (load_leds_from_csv rows_0_5) 2 0 5
                  _ _ Hp Hn Hlt)).
Defined.

(** * Further properties of the code *)

(** ** Reading the file *)

Section loading.
Implicit Types (rows : list csv_row) (row : csv_row) (k : Z).

Lemma load_leds_from_csv_snoc rows row :
  load_leds_from_csv (rows ++ [row])
  = <[row_index row := row_to_led row]> (load_leds_from_csv rows).
Proof. unfold load_leds_from_csv. by rewrite foldl_app. Qed.

Lemma lookup_load_leds_from_csv rows k :
  load_leds_from_csv rows !! k
  = row_to_led <$> last (filter (λ row, row_index row = k) rows).
Proof.
  induction rows as [|row rows IH] using rev_ind; [done|].
  rewrite load_leds_from_csv_snoc, filter_app.
  destruct (decide (row_index row = k)) as [<-|Hne].
  - rewrite lookup_insert_eq, (filter_singleton_True _ _ []) by done.
    by rewrite last_snoc.
  - rewrite lookup_insert_ne, (filter_singleton_False _ _ []) by done.
    by rewrite app_nil_r.
Qed.

Lemma dom_load_leds_from_csv rows :
  dom (load_leds_from_csv rows) = list_to_set (row_index <$> rows).
Proof.
  apply set_eq. intros k.
  rewrite elem_of_dom, elem_of_list_to_set.
  apply present_load_leds_from_csv.
Qed.

Lemma size_list_to_set_le (l : list Z) :
  (size (list_to_set l : gset Z) ≤ length l)%nat.
Proof.
  induction l as [|a l IH]; simpl; [done|].
  pose proof (size_union_alt {[a]} (list_to_set l : gset Z)) as Hu.
  pose proof (subseteq_size (list_to_set l ∖ {[a]}) (list_to_set l : gset Z)
                ltac:(set_solver)) as Hs.
  rewrite size_singleton in Hu. lia.
Qed.

Lemma size_list_to_set_NoDup (l : list Z) :
  size (list_to_set l : gset Z) = length l ↔ NoDup l.
Proof.
  split; [|apply size_list_to_set].
  induction l as [|a l IH]; [constructor|]. simpl. intros Hsize.
  pose proof (size_list_to_set_le l) as Hle.
  destruct (decide (a ∈ l)) as [Hin|Hnotin].
  - exfalso.
    assert ({[a]} ∪ list_to_set l = (list_to_set l : gset Z)) as Heq
      by set_solver.
    rewrite Heq in Hsize. lia.
  - constructor; [done|]. apply IH.
    rewrite size_union, size_singleton in Hsize by set_solver. lia.
Qed.
(** With distinct indices every row is the one that is kept. *)
Lemma lookup_load_leds_from_csv_NoDup rows row :
  NoDup (row_index <$> rows) → row ∈ rows →
  load_leds_from_csv rows !! row_index row = Some (row_to_led row).
Proof.
  intros Hnd Hrow.
  destruct (load_leds_from_csv rows !! row_index row) as [l|] eqn:Hl;
    last first.
  { exfalso. apply not_present in Hl. apply Hl.
    apply present_load_leds_from_csv, list_elem_of_fmap. by exists row. }
  rewrite lookup_load_leds_from_csv in Hl.
  destruct (last _) as [row'|] eqn:Hlast; [|done].
  apply last_Some_elem_of, list_elem_of_filter in Hlast as [Hidx Hrow'].
  injection Hl as <-. do 2 f_equal.
  apply list_elem_of_lookup in Hrow as [i Hi].
  apply list_elem_of_lookup in Hrow' as [j Hj].
  assert (i = j) as ->; [|congruence].
  eapply (NoDup_lookup (row_index <$> rows)); [done|..].
  - by rewrite list_lookup_fmap, Hi.
  - by rewrite list_lookup_fmap, Hj, <- Hidx.
Qed.

(** A record of the dictionary comes from a row of the file. *)
Lemma lookup_load_leds_from_csv_Some rows k (l : led) :
  load_leds_from_csv rows !! k = Some l →
  ∃ row, row ∈ rows ∧ row_index row = k ∧ row_to_led row = l.
Proof.
  rewrite lookup_load_leds_from_csv.
  destruct (last _) as [row|] eqn:Hlast; [|done]. intros [= <-].
  apply last_Some_elem_of, list_elem_of_filter in Hlast as [Hidx Hrow].
  by exists row.
Qed.

Lemma StronglySorted_lt_NoDup (l : list Z) : StronglySorted Z.lt l → NoDup l.
Proof.
  induction 1 as [|a l _ IH Hlt]; constructor; [|done].
  intros Hin. rewrite Forall_forall in Hlt. specialize (Hlt a Hin). lia.
Qed.
End loading.

(** X1.  [load_leds_from_csv] keeps, for every index, the record of the last
    row that carries it; an index that no row carries has no entry. *)
Theorem load_leds_from_csv_last_row_wins (rows : list csv_row) (k : Z) :
  load_leds_from_csv rows !! k
  = row_to_led <$> last (filter (λ row, row_index row = k) rows) ∧
  (load_leds_from_csv rows !! k = None ↔ k ∉ row_index <$> rows).
Proof.
  split; [apply lookup_load_leds_from_csv|].
  rewrite <- not_present. by rewrite present_load_leds_from_csv.
Qed.

(** X2.  The number of LEDs reported as loaded is at most the number of rows
    of the file, and equals it exactly when no index occurs twice. *)
Theorem load_leds_from_csv_size (rows : list csv_row) :
  (size (load_leds_from_csv rows) ≤ length rows)%nat ∧
  (size (load_leds_from_csv rows) = length rows ↔
   NoDup (row_index <$> rows)).
Proof.
  rewrite <- size_dom, dom_load_leds_from_csv.
  rewrite <- (length_fmap row_index rows). split.
  - apply size_list_to_set_le.
  - apply size_list_to_set_NoDup.
Qed.

(** ** Writing the file *)

Section saving.
Implicit Types (leds : gmap Z led) (rows : list csv_row) (k : Z).

Lemma row_to_led_to_row k (l : led) : row_to_led (led_to_row k l) = l.
Proof. by destruct l. Qed.

Lemma led_to_row_to_led (row : csv_row) :
  full_row row → led_to_row (row_index row) (row_to_led row) = row.
Proof.
  destruct row as [i x y z xn yn zn er].
  intros ([? Hxn] & [? Hyn] & [? Hzn] & [? Her]); simpl in *; by subst.
Qed.

Lemma full_row_led_to_row k (l : led) : full_row (led_to_row k l).
Proof. unfold full_row. simpl. eauto. Qed.

(** The rows written for a list of ids that all have an entry. *)
Lemma write_rows_present leds (ids : list Z) :
  Forall (present leds) ids →
  ∃ rows, write_rows leds ids = Ok rows ∧
          Forall2 (λ id row, ∃ l, leds !! id = Some l ∧ row = led_to_row id l)
            ids rows.
Proof.
  induction 1 as [|id ids [l Hl] _ (rows & Hrun & Hall)]; simpl.
  - exists []. by split.
  - unfold getitem. rewrite Hl. simpl. rewrite Hrun. simpl.
    eexists. split; [done|]. constructor; [by exists l|done].
Qed.

(** An id without an entry stops the writing with a [KeyError]. *)
Lemma write_rows_absent leds (ids1 ids2 : list Z) k :
  Forall (present leds) ids1 → leds !! k = None →
  write_rows leds (ids1 ++ k :: ids2) = Raise (KeyError k).
Proof.
  intros Hall Hnone. induction Hall as [|id ids1 [l Hl] _ IH]; simpl.
  - unfold getitem. by rewrite Hnone.
  - unfold getitem. rewrite Hl. simpl. by rewrite IH.
Qed.

Lemma sorted_keys leds :
  StronglySorted Z.lt (merge_sort Z.le (keys leds)) ∧
  ∀ k, k ∈ merge_sort Z.le (keys leds) ↔ present leds k.
Proof.
  split.
  - apply StronglySorted_le_lt;
      [apply (StronglySorted_merge_sort Z.le)|].
    rewrite merge_sort_Permutation. apply NoDup_keys.
  - intros k. by rewrite merge_sort_Permutation, elem_of_keys.
Qed.

Lemma Forall2_row_index leds (ids : list Z) rows :
  Forall2 (λ id row, ∃ l, leds !! id = Some l ∧ row = led_to_row id l)
    ids rows →
  row_index <$> rows = ids.
Proof.
  induction 1 as [|id row ids rows (l & _ & ->) _ IH]; [done|].
  rewrite fmap_cons. by rewrite IH.
Qed.

Lemma Forall2_rows_elem leds (ids : list Z) rows row :
  Forall2 (λ id row, ∃ l, leds !! id = Some l ∧ row = led_to_row id l)
    ids rows →
  row ∈ rows ↔ ∃ id l, id ∈ ids ∧ leds !! id = Some l ∧ row = led_to_row id l.
Proof.
  induction 1 as [|id row' ids rows (l & Hl & ->) _ IH].
  - rewrite elem_of_nil. split; [done|].
    by intros (? & ? & []%elem_of_nil & _).
  - rewrite elem_of_cons, IH. split.
    + intros [->|(id' & l' & Hin & Hl' & ->)].
      * exists id, l. split; [left|]; done.
      * exists id', l'. split; [by right|done].
    + intros (id' & l' & [->|Hin]%elem_of_cons & Hl' & ->).
      * left. congruence.
      * right. by exists id', l'.
Qed.

(** What [save_leds_to_csv] writes. *)
Lemma save_leds_to_csv_rows leds :
  ∃ rows, save_leds_to_csv leds = Ok rows ∧
          Forall2 (λ id row, ∃ l, leds !! id = Some l ∧ row = led_to_row id l)
            (merge_sort Z.le (keys leds)) rows.
Proof.
  apply write_rows_present. rewrite Forall_forall.
  intros k Hk. by apply sorted_keys.
Qed.
End saving.

(** X3.  [save_leds_to_csv] never raises.  It writes one row per LED, with
    all eight columns, in strictly ascending order of the index, and a row
    is written exactly for the records of the dictionary. *)
Theorem save_leds_to_csv_sorted_complete (leds : gmap Z led) :
  ∃ rows, save_leds_to_csv leds = Ok rows ∧
          StronglySorted Z.lt (row_index <$> rows) ∧
          length rows = size leds ∧
          Forall full_row rows ∧
          ∀ k l, leds !! k = Some l ↔ led_to_row k l ∈ rows.
Proof.
  destruct (save_leds_to_csv_rows leds) as (rows & Hrun & Hall).
  exists rows. split; [done|].
  pose proof (Forall2_row_index _ _ _ Hall) as Hidx.
  destruct (sorted_keys leds) as [Hsorted Hkeys].
  split_and!.
  - by rewrite Hidx.
  - rewrite <- (length_fmap row_index), Hidx.
    by rewrite merge_sort_Permutation, length_keys.
  - rewrite Forall_forall. intros row Hrow.
    apply (Forall2_rows_elem _ _ _ row Hall) in Hrow as (id & l & _ & _ & ->).
    apply full_row_led_to_row.
  - intros k l. rewrite (Forall2_rows_elem _ _ _ _ Hall). split.
    + intros Hl. exists k, l. split; [|done]. apply Hkeys. by exists l.
    + intros (id & l' & _ & Hl' & Heq).
      assert (k = id) as -> by (by injection Heq).
      apply (f_equal row_to_led) in Heq.
      rewrite !row_to_led_to_row in Heq. by subst.
Qed.

Lemma load_save_round_trip_aux (leds : gmap Z led) :
  ∃ rows, save_leds_to_csv leds = Ok rows ∧ load_leds_from_csv rows = leds.
Proof.
  destruct (save_leds_to_csv_rows leds) as (rows & Hrun & Hall).
  exists rows. split; [done|]. apply map_eq. intros k.
  rewrite lookup_load_leds_from_csv.
  destruct (last (filter (λ row, row_index row = k) rows)) as [row|] eqn:Hlast.
  - apply last_Some_elem_of, list_elem_of_filter in Hlast as [<- Hrow].
    apply (Forall2_rows_elem _ _ _ row Hall) in Hrow as (id & l & _ & Hl & ->).
    simpl. by rewrite row_to_led_to_row.
  - simpl. symmetry. apply not_present. intros [l Hl].
    apply last_None in Hlast.
    assert (led_to_row k l ∈ rows) as Hrow.
    { apply (Forall2_rows_elem _ _ _ _ Hall). exists k, l.
      split; [|done]. apply sorted_keys. by exists l. }
    by apply (filter_nil_not_elem_of _ _ _ Hlast) in Hrow.
Qed.

(** X4.  Reading back what [save_leds_to_csv] has written gives the
    dictionary that was written. *)
Theorem load_save_round_trip (leds : gmap Z led) :
  ∃ rows, save_leds_to_csv leds = Ok rows ∧ load_leds_from_csv rows = leds.
Proof. apply load_save_round_trip_aux. Qed.

(** X5.  Round trip on cell values: rows that carry all eight columns, in
    strictly ascending order of the index, are written back row for row with
    the same number in every cell.  The rows are those of [csv.DictReader]
    after [int] and [float], so this speaks of the numbers in the cells and
    not of their text: a cell read as [1] is the float [1.0] and is written
    as such. *)
Theorem save_load_round_trip (rows : list csv_row) :
  StronglySorted Z.lt (row_index <$> rows) →
  Forall full_row rows →
  save_leds_to_csv (load_leds_from_csv rows) = Ok rows.
Proof.
  intros Hsorted Hfull.
  destruct (save_leds_to_csv_rows (load_leds_from_csv rows))
    as (rows' & -> & Hall).
  f_equal.
  assert (NoDup (row_index <$> rows)) as Hnd
    by (by apply StronglySorted_lt_NoDup).
  assert (merge_sort Z.le (keys (load_leds_from_csv rows))
          = row_index <$> rows) as Hids.
  { apply (StronglySorted_unique_strong Z.lt); [intros; lia| |done|].
    - apply sorted_keys.
    - apply NoDup_Permutation; [|done|].
      + rewrite merge_sort_Permutation. apply NoDup_keys.
      + intros k. rewrite merge_sort_Permutation, elem_of_keys.
        apply present_load_leds_from_csv. }
  rewrite Hids in Hall. apply Forall2_fmap_l in Hall.
  symmetry. apply list_eq. intros i.
  pose proof (proj1 (Forall2_lookup _ _ _) Hall i) as Hi.
  destruct (rows !! i) as [row|] eqn:Hrow;
    destruct (rows' !! i) as [row'|] eqn:Hrow';
    inversion Hi as [? ? (l & Hl & Heq)|]; [|done].
  subst. simpl in Hl. f_equal.
  assert (row ∈ rows) as Hin by (by eapply list_elem_of_lookup_2).
  rewrite (lookup_load_leds_from_csv_NoDup rows row Hnd Hin) in Hl.
  injection Hl as <-.
  rewrite led_to_row_to_led; [done|].
  rewrite Forall_forall in Hfull. by apply Hfull.
Qed.

Lemma save_load_round_trip_witness :
  (StronglySorted Z.lt (row_index <$> rows_full) ∧
   Forall full_row rows_full) ∧
  save_leds_to_csv (load_leds_from_csv rows_full) = Ok rows_full.
Proof.
  assert (StronglySorted Z.lt (row_index <$> rows_full)) as Hsorted
    by (apply (bool_decide_unpack _); vm_compute; exact I).
  assert (Forall full_row rows_full) as Hfull
    by (repeat constructor; simpl; eauto).
  split; [done|].
  exact (save_load_round_trip rows_full Hsorted Hfull).
Defined.

(** ** The body of the pass *)

Section body.
Implicit Types (leds : gmap Z led) (id k total : Z).

Lemma synthetic_interpolated (prev_led next_led : led) (fraction : float) :
  synthetic (interpolated prev_led next_led fraction).
Proof. by repeat split. Qed.

Lemma bounded_both_dec leds id : Decision (bounded_both leds id).
Proof.
  destruct (decide (interior leds id)) as [H|H];
    rewrite interior_bounded_both in H; [by left|by right].
Defined.

Lemma for_missing_synthetic (ids : list Z) leds patched leds' patched' :
  for_missing ids leds patched = Ok (leds', patched') →
  ∀ k l, leds' !! k = Some l → leds !! k = Some l ∨ synthetic l.
Proof.
  revert leds patched. induction ids as [|id ids IH]; intros leds patched.
  - intros [= <- <-] k l Hl. by left.
  - simpl. destruct (bounded_both_dec leds id) as [Hb|Hb].
    + destruct (patch_one_bounded leds patched id Hb)
        as (p & n & pl & nl & _ & _ & _ & _ & ->). simpl.
      intros Hrun k l Hl.
      destruct (IH _ _ Hrun k l Hl) as [Hk|Hs]; [|by right].
      destruct (decide (id = k)) as [->|Hne].
      * rewrite lookup_insert_eq in Hk. injection Hk as <-.
        right. apply synthetic_interpolated.
      * rewrite lookup_insert_ne in Hk by done. by left.
    + rewrite (patch_one_unbounded leds patched id Hb). simpl. apply IH.
Qed.

Lemma sweep_synthetic leds total k (l : led) :
  sweep leds total !! k = Some l →
  leds !! k = Some l ∨
  (leds !! k = None ∧ gap leds total k ∧ bounded_both leds k ∧ synthetic l).
Proof.
  intros Hl.
  destruct (leds !! k) as [l0|] eqn:Hk.
  - left. pose proof (sweep_subseteq leds total) as Hsub.
    rewrite (lookup_weaken _ _ _ _ Hk Hsub) in Hl. congruence.
  - right. split; [done|].
    assert (present (sweep leds total) k) as Hp by (by exists l).
    apply present_sweep in Hp as [[? ?]|[Hgap Hb]]; [congruence|].
    split_and!; [done..|].
    destruct (for_missing_synthetic _ _ _ _ _ (sweep_run leds total) k l Hl)
      as [?|?]; [congruence|done].
Qed.
End body.

(** X6.  The body of the [for] loop never raises, whatever dictionary and id
    it is given: when the dictionary has a key below and a key above the id
    it stores a record built by [interpolate_led] under the id and counts it,
    otherwise it leaves dictionary and counter alone.  The [KeyError] and
    [ZeroDivisionError] of [interpolate_led] cannot be reached from it. *)
Theorem patch_one_never_raises (leds : gmap Z led) (patched id : Z) :
  ∃ leds' patched',
    patch_one leds patched id = Ok (leds', patched') ∧
    ((bounded_both leds id ∧ patched' = patched + 1 ∧
      ∃ prev_id next_id prev_led next_led fraction,
        find_nearest_prev_led leds id = Some prev_id ∧
        find_nearest_next_led leds id = Some next_id ∧
        prev_id < id < next_id ∧
        interpolate_led leds id prev_id next_id
        = Ok (interpolated prev_led next_led fraction) ∧
        leds' = <[id := interpolated prev_led next_led fraction]> leds) ∨
     (¬ bounded_both leds id ∧ patched' = patched ∧ leds' = leds)).
Proof.
  destruct (bounded_both_dec leds id) as [Hb|Hb].
  - destruct (patch_one_bounded leds patched id Hb)
      as (p & n & pl & nl & Hp & Hn & Hpl & Hnl & Hrun).
    eexists _, _. split; [done|]. left. split; [done|]. split; [done|].
    exists p, n, pl, nl,
      (SF2Prim (int_quotient_SF (id - p) (n - p))).
    destruct Hp as (Hp1 & Hp2 & Hp3). destruct Hn as (Hn1 & Hn2 & Hn3).
    split_and!; [| |lia|lia| |done].
    + by apply find_nearest_prev_led_Some.
    + by apply find_nearest_next_led_Some.
    + by apply interpolate_led_ok.
  - rewrite (patch_one_unbounded leds patched id Hb).
    eexists _, _. split; [done|]. by right.
Qed.

Lemma patched_records_synthetic_aux (rows : list csv_row)
    (total max_it : Z) :
  ∃ st, patch_leds rows total max_it = Ok st ∧
        ∀ k l, (load_leds_from_csv rows !! k = Some l →
                st_leds st !! k = Some l) ∧
               (st_leds st !! k = Some l →
                load_leds_from_csv rows !! k = Some l ∨
                (load_leds_from_csv rows !! k = None ∧ 0 ≤ k < total ∧
                 led_xn l = 0%float ∧ led_yn l = 0%float ∧
                 led_zn l = 0%float ∧ led_error l = 0%float)).
Proof.
  rewrite patch_leds_closed. eexists. split; [done|]. simpl.
  set (leds0 := load_leds_from_csv rows).
  intros k l. split.
  { intros Hl. eapply lookup_weaken; [done|].
    apply (one_pass_then_settle_grown total max_it 0 leds0). }
  destruct (one_pass_then_settle_leds total max_it 0 leds0
              [MsgLoaded (size leds0); MsgTarget total])
    as [->|(_ & _ & ->)]; [by left|].
  intros [?|(Hnone & [Hrange _] & _ & Hs)]%sweep_synthetic; [by left|].
  right. by destruct Hs as (? & ? & ? & ?).
Qed.

(** X7.  Every record of the dictionary [patch_leds] returns is either a
    record of the loaded dictionary, unchanged, or a record stored for an id
    of [[0, total_leds)] that the file did not carry, and then its [xn],
    [yn], [zn] and [error] are all [0.0]. *)
Theorem patched_records_synthetic (rows : list csv_row) (total max_it : Z) :
  ∃ st, patch_leds rows total max_it = Ok st ∧
        ∀ k l, st_leds st !! k = Some l →
               load_leds_from_csv rows !! k = Some l ∨
               (load_leds_from_csv rows !! k = None ∧ 0 ≤ k < total ∧
                led_xn l = 0%float ∧ led_yn l = 0%float ∧
                led_zn l = 0%float ∧ led_error l = 0%float).
Proof.
  destruct (patched_records_synthetic_aux rows total max_it)
    as (st & Hrun & Hrec).
  exists st. split; [done|]. intros k l. apply Hrec.
Qed.

(** ** Counting *)

Section counting.
Implicit Types (leds : gmap Z led) (id k total : Z).

(** The keys inside the range, counted. *)
Lemma length_find_missing_ids leds total :
  Z.of_nat (length (find_missing_ids leds total))
  + Z.of_nat (length (filter (λ k, 0 ≤ k < total) (keys leds)))
  = Z.max 0 total.
Proof.
  rewrite find_missing_ids_filter_range.
  pose proof (filter_app_complement (λ id, leds !! id = None) (range total))
    as Hsplit.
  apply Permutation_length in Hsplit. rewrite length_app in Hsplit.
  assert (filter (λ id, ¬ leds !! id = None) (range total)
          ≡ₚ filter (λ k, 0 ≤ k < total) (keys leds)) as Hperm.
  { apply NoDup_Permutation.
    - apply NoDup_filter, NoDup_seqZ.
    - apply NoDup_filter, NoDup_keys.
    - intros k. rewrite !list_elem_of_filter, elem_of_range, elem_of_keys.
      unfold present. rewrite <- not_eq_None_Some. tauto. }
  rewrite <- (Permutation_length Hperm).
  unfold range in *. rewrite length_seqZ in Hsplit. lia.
Qed.

Lemma filter_all (P : Z → Prop) `{∀ x, Decision (P x)} (l : list Z) :
  Forall P l → filter P l = l.
Proof.
  induction 1 as [|a l Ha _ IH]; [done|].
  by rewrite filter_cons_True, IH.
Qed.

(** For a dictionary with all keys in range, [len(leds) == total_leds] says
    that no id is missing. *)
Lemma len_total_iff_complete leds total :
  0 ≤ total → (∀ k, present leds k → 0 ≤ k < total) →
  len leds = total ↔ find_missing_ids leds total = [].
Proof.
  intros Htot Hkeys.
  pose proof (length_find_missing_ids leds total) as Hcount.
  rewrite filter_all in Hcount; last first.
  { rewrite Forall_forall. intros k Hk. by apply Hkeys, elem_of_keys. }
  rewrite length_keys in Hcount. unfold len.
  rewrite <- length_zero_iff_nil. lia.
Qed.


(** Two distinct keys make two entries. *)
Lemma size_ge_2 leds k1 k2 :
  present leds k1 → present leds k2 → k1 ≠ k2 → (2 ≤ size leds)%nat.
Proof.
  intros Hk1 Hk2 Hne. rewrite <- size_dom.
  assert (({[k1]} ∪ {[k2]} : gset Z) ⊆ dom leds) as Hsub.
  { intros k [->%elem_of_singleton| ->%elem_of_singleton]%elem_of_union;
      by apply elem_of_dom. }
  apply subseteq_size in Hsub.
  rewrite size_union, !size_singleton in Hsub by set_solver. lia.
Qed.


(** The closed form leaves alone a dictionary that cannot be patched. *)
Lemma one_pass_then_settle_fixed total max_it it leds log :
  ¬ len leds < total ∨ ¬ it < max_it ∨ interior_gaps leds total = [] →
  st_leds (one_pass_then_settle total max_it it leds log) = leds.
Proof.
  intros Hfix. unfold one_pass_then_settle.
  rewrite bool_decide_eq_false_2 by tauto. apply settle_leds.
Qed.
End counting.

(** X8.  The ids [find_missing_ids] returns and the keys of the dictionary
    that lie in [[0, total_leds)] are, counted together, [total_leds]
    (nothing for a negative [total_leds]). *)
Theorem find_missing_ids_count (leds : gmap Z led) (total : Z) :
  Z.of_nat (length (find_missing_ids leds total))
  + Z.of_nat (length (filter (λ k, 0 ≤ k < total) (keys leds)))
  = Z.max 0 total.
Proof. apply length_find_missing_ids. Qed.

(** X9.  The [if not missing_ids: break] of the loop is never taken: once
    [len(leds) < total_leds] holds some id is missing.  Whatever the state
    the loop is started in, and however much fuel it is given, it does not
    end on that [break]. *)
Theorem break_on_no_missing_unreachable (fuel : nat) (total max_it it : Z)
    (leds : gmap Z led) (log : list message) :
  (len leds < total → find_missing_ids leds total ≠ []) ∧
  match patch_loop fuel total max_it it leds log with
  | Ok st => st_exit st ≠ BreakNoMissing
  | _ => True
  end.
Proof.
  split; [apply find_missing_ids_nonempty|].
  revert it leds log. induction fuel as [|fuel IH]; intros it leds log.
  - destruct (decide (len leds < total)) as [Hlen|Hlen];
      [|by rewrite patch_loop_exit_size].
    destruct (decide (it < max_it)) as [Hit|Hit];
      [|by rewrite patch_loop_exit_cap].
    by rewrite patch_loop_out_of_fuel.
  - destruct (decide (len leds < total)) as [Hlen|Hlen];
      [|by rewrite patch_loop_exit_size].
    destruct (decide (it < max_it)) as [Hit|Hit];
      [|by rewrite patch_loop_exit_cap].
    rewrite (patch_loop_body _ _ _ _ _ _ _ _ Hlen Hit (sweep_run leds total)).
    destruct (_ =? 0); [by simpl|apply IH].
Qed.


(** X11.  From a file with fewer than two LEDs nothing can be interpolated:
    [patch_leds] returns the loaded dictionary as it is. *)
Theorem fewer_than_two_leds_unchanged (rows : list csv_row)
    (total max_it : Z) :
  (size (load_leds_from_csv rows) ≤ 1)%nat →
  ∃ st, patch_leds rows total max_it = Ok st ∧
        st_leds st = load_leds_from_csv rows.
Proof.
  intros Hsize. rewrite patch_leds_closed. eexists. split; [done|]. simpl.
  apply one_pass_then_settle_fixed. right. right.
  apply elem_of_nil_inv. intros id [_ Hb]%elem_of_interior_gaps.
  destruct Hb as [(k1 & Hk1 & Hlt1) (k2 & Hk2 & Hlt2)].
  pose proof (size_ge_2 _ k1 k2 Hk1 Hk2 ltac:(lia)). lia.
Qed.

Lemma fewer_than_two_leds_unchanged_witness :
  (size (load_leds_from_csv rows_3) ≤ 1)%nat ∧
  ∃ st, patch_leds rows_3 5 default_max_iterations = Ok st ∧
        st_leds st = load_leds_from_csv rows_3.
Proof.
  assert (size (load_leds_from_csv rows_3) ≤ 1)%nat as Hsize
    by (apply (bool_decide_unpack _); vm_compute; exact I).
  split; [done|].
  exact (fewer_than_two_leds_unchanged rows_3 5 default_max_iterations Hsize).
Defined.

(** ** Complete and repeated runs *)

Section complete.
Implicit Types (leds : gmap Z led) (id k total : Z) (rows : list csv_row).

Lemma keys_in_range_load rows total :
  Forall (λ row, 0 ≤ row_index row < total) rows →
  ∀ k, present (load_leds_from_csv rows) k → 0 ≤ k < total.
Proof.
  intros Hrows k Hk. apply present_load_leds_from_csv in Hk.
  apply list_elem_of_fmap in Hk as (row & -> & Hrow).
  rewrite Forall_forall in Hrows. by apply Hrows.
Qed.

Lemma keys_in_range_result total max_it it leds log :
  (∀ k, present leds k → 0 ≤ k < total) →
  ∀ k, present (st_leds (one_pass_then_settle total max_it it leds log)) k →
       0 ≤ k < total.
Proof.
  intros Hkeys k Hk.
  apply (one_pass_then_settle_grown total max_it it leds log) in Hk
    as [Hk|[[Hk _] _]]; [by apply Hkeys|done].
Qed.

(** What is left to patch after a run that was allowed one iteration. *)
Lemma result_settled total max_it leds log :
  0 < max_it →
  let leds' := st_leds (one_pass_then_settle total max_it 0 leds log) in
  ¬ len leds' < total ∨ interior_gaps leds' total = [].
Proof.
  intros Hmax. unfold one_pass_then_settle. case_bool_decide as Hgo; simpl.
  - right. rewrite settle_leds. apply interior_gaps_sweep.
  - rewrite settle_leds.
    destruct (decide (len leds < total)); [|by left].
    destruct (decide (interior_gaps leds total = [])); [by right|].
    exfalso. by apply Hgo.
Qed.

(** The closing message. *)
Lemma last_log_success (st : patch_state) total (log : list message) :
  last (log ++ [if len (st_leds st) =? total then MsgSuccess
                else MsgOnlyPatched (size (st_leds st)) total])
  = Some MsgSuccess ↔ len (st_leds st) = total.
Proof.
  rewrite last_snoc. destruct (Z.eqb_spec (len (st_leds st)) total);
    naive_solver.
Qed.
End complete.

(** X12.  When the file carries the ids 0 and [total_leds - 1], all its
    indices lie in [[0, total_leds)] and at least one iteration is allowed,
    [patch_leds] fills the whole range: every id of [[0, total_leds)] has an
    entry, there are exactly [total_leds] entries, the loop is left through
    its size test after at most one iteration and the last line printed is
    the success message. *)
Theorem patch_leds_completes (rows : list csv_row) (total max_it : Z) :
  0 < max_it →
  is_Some (load_leds_from_csv rows !! 0) →
  is_Some (load_leds_from_csv rows !! (total - 1)) →
  Forall (λ row, 0 ≤ row_index row < total) rows →
  ∃ st, patch_leds rows total max_it = Ok st ∧
        (∀ id, 0 ≤ id < total → is_Some (st_leds st !! id)) ∧
        len (st_leds st) = total ∧
        st_exit st = ExitSize ∧ 0 ≤ st_iteration st ≤ 1 ∧
        last (st_log st) = Some MsgSuccess.
Proof.
  intros Hmax H0 Hlast Hrows.
  rewrite patch_leds_closed. eexists. split; [done|]. simpl.
  set (leds0 := load_leds_from_csv rows) in *.
  set (log0 := [MsgLoaded (size leds0); MsgTarget total]).
  pose proof (keys_in_range_load rows total Hrows) as Hin. fold leds0 in Hin.
  assert (0 ≤ total) as Htot by (specialize (Hin 0 H0); lia).
  assert (∀ id, gap leds0 total id → bounded_both leds0 id) as Hgaps.
  { intros id [Hid Hnone]. split.
    - exists 0. split; [done|].
      destruct (decide (id = 0)) as [->|]; [|lia].
      destruct H0; congruence.
    - exists (total - 1). split; [done|].
      destruct (decide (id = total - 1)) as [->|]; [|lia].
      destruct Hlast; congruence. }
  set (st := one_pass_then_settle total max_it 0 leds0 log0).
  assert (∀ id, 0 ≤ id < total → present (st_leds st) id) as Hall.
  { intros id Hid.
    destruct (leds0 !! id) as [l|] eqn:Hl.
    { eapply present_subseteq; [|by exists l].
      apply (one_pass_then_settle_grown total max_it 0 leds0 log0). }
    assert (gap leds0 total id) as Hgap by done.
    assert (id ∈ interior_gaps leds0 total) as Hig
      by (apply elem_of_interior_gaps; auto).
    destruct (decide (len leds0 < total)) as [Hlen|Hlen].
    - unfold st, one_pass_then_settle.
      rewrite bool_decide_eq_true_2, settle_leds.
      + apply present_sweep. right. auto.
      + split_and!; [done..|]. intros Hnil. rewrite Hnil in Hig.
        by apply elem_of_nil in Hig.
    - exfalso.
      assert (len leds0 = total) as Heq.
      { pose proof (len_le_total leds0 total Htot Hin). lia. }
      apply len_total_iff_complete in Heq; [|done..].
      apply elem_of_find_missing_ids in Hgap. rewrite Heq in Hgap.
      by apply elem_of_nil in Hgap. }
  assert (len (st_leds st) = total) as Hlen.
  { apply len_total_iff_complete; [done| |].
    - by apply keys_in_range_result.
    - by apply find_missing_ids_nil. }
  split_and!; [done..| | | |by apply last_log_success].
  - revert Hlen. unfold st, one_pass_then_settle, settle.
    repeat (case_bool_decide || case_match); simpl; try done;
      intros; lia.
  - apply one_pass_then_settle_iteration.
  - revert Hlen. unfold st, one_pass_then_settle, settle.
    repeat (case_bool_decide || case_match); simpl; intros; lia.
Qed.

Lemma patch_leds_completes_witness :
  (0 < default_max_iterations ∧
   is_Some (load_leds_from_csv rows_0_5 !! 0) ∧
   is_Some (load_leds_from_csv rows_0_5 !! (6 - 1)) ∧
   Forall (λ row, 0 ≤ row_index row < 6) rows_0_5) ∧
  ∃ st, patch_leds rows_0_5 6 default_max_iterations = Ok st ∧
        (∀ id, 0 ≤ id < 6 → is_Some (st_leds st !! id)) ∧
        len (st_leds st) = 6 ∧
        st_exit st = ExitSize ∧ 0 ≤ st_iteration st ≤ 1 ∧
        last (st_log st) = Some MsgSuccess.
Proof.
  assert (0 < default_max_iterations) as Hmax by (by vm_compute).
  assert (is_Some (load_leds_from_csv rows_0_5 !! 0)) as H0
    by (vm_compute; eauto).
  assert (is_Some (load_leds_from_csv rows_0_5 !! (6 - 1))) as H5
    by (vm_compute; eauto).
  assert (Forall (λ row, 0 ≤ row_index row < 6) rows_0_5) as Hrows
    by (repeat constructor; simpl; lia).
  split; [done|].
  exact (patch_leds_completes rows_0_5 6 default_max_iterations
           Hmax H0 H5 Hrows).
Defined.

(** X13.  For a file whose indices all lie in [[0, total_leds)], with
    [total_leds] not negative, the success message is the last line printed
    exactly when the returned dictionary has an entry for every id of the
    range; in every other case the last line is the "Only patched" warning
    with the size returned. *)
Theorem success_message_iff_complete (rows : list csv_row)
    (total max_it : Z) :
  0 ≤ total →
  Forall (λ row, 0 ≤ row_index row < total) rows →
  ∃ st, patch_leds rows total max_it = Ok st ∧
        (last (st_log st) = Some MsgSuccess ↔
         ∀ id, 0 ≤ id < total → is_Some (st_leds st !! id)) ∧
        (last (st_log st) = Some MsgSuccess ∨
         last (st_log st)
         = Some (MsgOnlyPatched (size (st_leds st)) total)).
Proof.
  intros Htot Hrows.
  rewrite patch_leds_closed. eexists. split; [done|]. simpl.
  set (leds0 := load_leds_from_csv rows) in *.
  set (st := one_pass_then_settle total max_it 0 leds0 _).
  split.
  - rewrite last_log_success.
    etrans; [|apply find_missing_ids_nil].
    apply len_total_iff_complete; [done|].
    apply keys_in_range_result. by apply keys_in_range_load.
  - rewrite last_snoc. case_match; [by left|by right].
Qed.

Lemma success_message_iff_complete_witness :
  (0 ≤ 5 ∧ Forall (λ row, 0 ≤ row_index row < 5) rows_2_4) ∧
  ∃ st, patch_leds rows_2_4 5 default_max_iterations = Ok st ∧
        (last (st_log st) = Some MsgSuccess ↔
         ∀ id, 0 ≤ id < 5 → is_Some (st_leds st !! id)) ∧
        (last (st_log st) = Some MsgSuccess ∨
         last (st_log st) = Some (MsgOnlyPatched (size (st_leds st)) 5)).
Proof.
  assert (0 ≤ 5) as Htot by lia.
  assert (Forall (λ row, 0 ≤ row_index row < 5) rows_2_4) as Hrows
    by (repeat constructor; simpl; lia).
  split; [done|].
  exact (success_message_iff_complete rows_2_4 5 default_max_iterations
           Htot Hrows).
Defined.

(** ** The tool as a whole *)

Section pipeline.
Implicit Types (leds : gmap Z led) (id k total : Z) (rows : list csv_row).

(** The dictionary returned by [patch_leds], as a function of the input. *)
Lemma patch_leds_leds rows total max_it :
  ∃ st, patch_leds rows total max_it = Ok st ∧
        st_leds st
        = st_leds (one_pass_then_settle total max_it 0
                     (load_leds_from_csv rows)
                     [MsgLoaded (size (load_leds_from_csv rows));
                      MsgTarget total]).
Proof. rewrite patch_leds_closed. by eexists. Qed.

Lemma patch_and_save_Ok rows total :
  ∃ st out, patch_leds rows total default_max_iterations = Ok st ∧
            save_leds_to_csv (st_leds st) = Ok out ∧
            patch_and_save rows total = Ok out ∧
            load_leds_from_csv out = st_leds st.
Proof.
  destruct (patch_leds_leds rows total default_max_iterations)
    as (st & Hrun & _).
  destruct (load_save_round_trip_aux (st_leds st)) as (out & Hsave & Hload).
  exists st, out. unfold patch_and_save. rewrite Hrun. simpl. by rewrite Hsave.
Qed.

(** The closed form only tests the cap against 0 and 1. *)
Lemma one_pass_then_settle_cap total m1 m2 it leds log :
  it + 1 < m1 → it + 1 < m2 →
  one_pass_then_settle total m1 it leds log
  = one_pass_then_settle total m2 it leds log.
Proof.
  intros H1 H2. unfold one_pass_then_settle, settle.
  rewrite (bool_decide_ext (len leds < total ∧ it < m1 ∧ _)
                           (len leds < total ∧ it < m2 ∧
                            interior_gaps leds total ≠ []))
    by (split; intros (? & ? & ?); split_and!; done || lia).
  assert ((it <? m1) = true) as -> by lia.
  assert ((it <? m2) = true) as -> by lia.
  assert ((it + 1 <? m1) = true) as -> by lia.
  assert ((it + 1 <? m2) = true) as -> by lia.
  done.
Qed.
End pipeline.

(** X14.  Running the tool on its own output changes nothing: the rows
    written for a file, given back as input with the same [total_leds], are
    written out again exactly as they are. *)
Theorem patch_and_save_idempotent (rows : list csv_row) (total : Z) :
  ∃ out, patch_and_save rows total = Ok out ∧
         patch_and_save out total = Ok out.
Proof.
  destruct (patch_and_save_Ok rows total)
    as (st & out & Hrun & Hsave & Hout & Hload).
  exists out. split; [done|].
  destruct (patch_leds_leds out total default_max_iterations)
    as (st' & Hrun' & Hleds').
  unfold patch_and_save. rewrite Hrun'. simpl.
  assert (st_leds st' = st_leds st) as ->; [|done].
  rewrite Hleds', Hload. apply one_pass_then_settle_fixed.
  destruct (patch_leds_leds rows total default_max_iterations)
    as (st0 & Hrun0 & Hleds0).
  assert (st0 = st) as -> by congruence.
  rewrite Hleds0.
  destruct (result_settled total default_max_iterations
              (load_leds_from_csv rows)
              [MsgLoaded (size (load_leds_from_csv rows)); MsgTarget total])
    as [?|?]; [done|by left|by right; right].
Qed.

(** X15.  [max_iterations] makes no difference from 2 on: every value of at
    least 2, the default of 1000 among them, gives the same dictionary, the
    same counter and the same printed lines as 2. *)
Theorem patch_leds_cap_irrelevant (rows : list csv_row) (total max_it : Z) :
  2 ≤ max_it →
  patch_leds rows total max_it = patch_leds rows total 2.
Proof.
  intros Hmax. rewrite !patch_leds_closed. simpl.
  by rewrite (one_pass_then_settle_cap total max_it 2) by lia.
Qed.

Lemma patch_leds_cap_irrelevant_witness :
  2 ≤ default_max_iterations ∧
  patch_leds rows_2_4 5 default_max_iterations = patch_leds rows_2_4 5 2.
Proof.
  assert (2 ≤ default_max_iterations) as Hmax by (by vm_compute).
  split; [done|].
  exact (patch_leds_cap_irrelevant rows_2_4 5 default_max_iterations Hmax).
Defined.

(** X16.  When no index occurs twice, the order of the rows in the file does
    not matter: two files with the same rows in different order load to the
    same dictionary and are patched to the same result. *)
Theorem row_order_irrelevant (rows1 rows2 : list csv_row)
    (total max_it : Z) :
  rows1 ≡ₚ rows2 →
  NoDup (row_index <$> rows1) →
  load_leds_from_csv rows1 = load_leds_from_csv rows2 ∧
  patch_leds rows1 total max_it = patch_leds rows2 total max_it ∧
  patch_and_save rows1 total = patch_and_save rows2 total.
Proof.
  intros Hperm Hnd1.
  assert (NoDup (row_index <$> rows2)) as Hnd2 by (by rewrite <- Hperm).
  assert (load_leds_from_csv rows1 = load_leds_from_csv rows2) as Heq.
  { assert (∀ rs rs' k l,
      rs ≡ₚ rs' → NoDup (row_index <$> rs') →
      load_leds_from_csv rs !! k = Some l →
      load_leds_from_csv rs' !! k = Some l) as Hone.
    { intros rs rs' k l Hp Hnd Hl.
      apply lookup_load_leds_from_csv_Some in Hl as (row & Hrow & <- & <-).
      apply lookup_load_leds_from_csv_NoDup; [done|]. by rewrite <- Hp. }
    apply map_eq. intros k.
    destruct (load_leds_from_csv rows1 !! k) as [l|] eqn:H1.
    - symmetry. by eapply Hone.
    - destruct (load_leds_from_csv rows2 !! k) as [l|] eqn:H2; [|done].
      eapply (Hone rows2 rows1) in H2; [congruence|done..]. }
  split; [done|].
  assert (patch_leds rows1 total max_it = patch_leds rows2 total max_it)
    as Hp.
  { intros. unfold patch_leds. by rewrite Heq. }
  split; [done|]. unfold patch_and_save, patch_leds. by rewrite Heq.
Qed.

Lemma row_order_irrelevant_witness :
  (rows_0_5 ≡ₚ reverse rows_0_5 ∧ NoDup (row_index <$> rows_0_5)) ∧
  load_leds_from_csv rows_0_5 = load_leds_from_csv (reverse rows_0_5) ∧
  patch_leds rows_0_5 6 default_max_iterations
  = patch_leds (reverse rows_0_5) 6 default_max_iterations ∧
  patch_and_save rows_0_5 6 = patch_and_save (reverse rows_0_5) 6.
Proof.
  assert (rows_0_5 ≡ₚ reverse rows_0_5) as Hperm
    by (symmetry; apply reverse_Permutation).
  assert (NoDup (row_index <$> rows_0_5)) as Hnd
    by (apply (bool_decide_unpack _); vm_compute; exact I).
  split; [done|].
  exact (row_order_irrelevant rows_0_5 (reverse rows_0_5) 6
           default_max_iterations Hperm Hnd).
Defined.

(** X17.  The rows the tool writes are in strictly ascending order of the
    index and carry all eight columns.  Every LED of the input file is
    written with its values (the last row of an index counting, absent
    columns as [0.0]); every other row written is for an id of
    [[0, total_leds)] that the file did not carry, and has [xn], [yn], [zn]
    and [error] equal to [0.0]. *)
Theorem patch_and_save_rows (rows : list csv_row) (total : Z) :
  ∃ out, patch_and_save rows total = Ok out ∧
         StronglySorted Z.lt (row_index <$> out) ∧
         Forall full_row out ∧
         (∀ k l, load_leds_from_csv rows !! k = Some l →
                 led_to_row k l ∈ out) ∧
         (∀ row, row ∈ out →
                 load_leds_from_csv rows !! row_index row
                 = Some (row_to_led row) ∨
                 (load_leds_from_csv rows !! row_index row = None ∧
                  0 ≤ row_index row < total ∧
                  row_xn row = Some 0%float ∧ row_yn row = Some 0%float ∧
                  row_zn row = Some 0%float ∧
                  row_error row = Some 0%float)).
Proof.
  unfold patch_and_save.
  destruct (patched_records_synthetic_aux rows total default_max_iterations)
    as (st & -> & Hrec). simpl.
  destruct (save_leds_to_csv_rows (st_leds st)) as (out & Hsave & Hall).
  exists out. split; [done|].
  pose proof (Forall2_row_index _ _ _ Hall) as Hidx.
  split_and!.
  - rewrite Hidx. apply sorted_keys.
  - rewrite Forall_forall. intros row Hrow.
    apply (Forall2_rows_elem _ _ _ row Hall) in Hrow as (id & l & _ & _ & ->).
    apply full_row_led_to_row.
  - intros k l Hl. apply (Forall2_rows_elem _ _ _ _ Hall).
    exists k, l. split; [|split; [|done]].
    + apply sorted_keys. exists l. by apply Hrec.
    + by apply Hrec.
  - intros row Hrow.
    apply (Forall2_rows_elem _ _ _ row Hall) in Hrow as (id & l & _ & Hl & ->).
    rewrite row_to_led_to_row. simpl.
    apply Hrec in Hl as [Hl|(Hnone & Hrange & Hxn & Hyn & Hzn & Her)];
      [by left|right].
    rewrite Hxn, Hyn, Hzn, Her. done.
Qed.

(** ** Which neighbours a pass uses *)

Section neighbours_in_pass.
Implicit Types (leds mid : gmap Z led) (id k total : Z).

Lemma option_eq_Some (o1 o2 : option Z) :
  (∀ k, o1 = Some k ↔ o2 = Some k) → o1 = o2.
Proof.
  intros H. destruct o1 as [k1|], o2 as [k2|]; [| | |done].
  - symmetry. by apply H.
  - symmetry. by apply (H k1).
  - by apply (H k2).
Qed.

Lemma min_above_agree leds mid id k :
  (∀ k', id < k' → (present mid k' ↔ present leds k')) →
  min_above mid id k ↔ min_above leds id k.
Proof.
  intros Hagree. unfold min_above. split.
  - intros (Hk & Hlt & Hmin). split_and!; [by apply Hagree|done|].
    intros k' Hk' Hlt'. apply Hmin; [|done]. by apply Hagree.
  - intros (Hk & Hlt & Hmin). split_and!; [by apply Hagree|done|].
    intros k' Hk' Hlt'. apply Hmin; [|done]. by apply Hagree.
Qed.

(** The dictionary in the middle of a pass, just before [id] is visited. *)
Lemma mid_pass leds total (pre post : list Z) id :
  find_missing_ids leds total = pre ++ id :: post →
  ∃ mid,
    for_missing pre leds 0 =
      Ok (mid, Z.of_nat (length (filter (interior leds) pre))) ∧
    (∀ k, present mid k ↔
          present leds k ∨ (k < id ∧ gap leds total k ∧ bounded_both leds k)).
Proof.
  intros Hsplit.
  destruct (sweep_prefix leds total pre (id :: post) Hsplit)
    as (mid & Hrun & _ & _ & Hkeys).
  exists mid. split; [done|]. intros k. rewrite Hkeys.
  pose proof (find_missing_ids_ascending leds total) as Hsorted.
  rewrite Hsplit in Hsorted.
  assert (∀ k', k' ∈ pre → k' < id) as Hpre.
  { intros k' Hk'.
    apply (StronglySorted_app_1_elem_of _ _ _ k' id Hsorted); [done|left]. }
  assert (∀ k', k' ∈ post → id < k') as Hpost.
  { intros k' Hk'. apply StronglySorted_app_1_r in Hsorted.
    apply StronglySorted_cons in Hsorted as [Hall _].
    rewrite Forall_forall in Hall. by apply Hall. }
  assert (∀ k', gap leds total k' ↔ k' ∈ pre ∨ k' = id ∨ k' ∈ post) as Hgap.
  { intros k'. rewrite <- elem_of_find_missing_ids, Hsplit.
    rewrite elem_of_app, elem_of_cons. tauto. }
  split; (intros [?|Hk]; [by left|right]).
  - destruct Hk as [Hk Hb]. split_and!; [by apply Hpre| |done].
    apply Hgap. by left.
  - destruct Hk as (Hlt & Hg & Hb). split; [|done].
    apply Hgap in Hg as [?|[->|Hp]]; [done|lia|].
    apply Hpost in Hp. lia.
Qed.
End neighbours_in_pass.

(** X18.  A pass hands on what it patches from left to right only.  When an
    id is visited, the upper neighbour found for it is the one the
    dictionary had at the start of the iteration, and the lower neighbour is
    the id just below it if that id is an interior gap (it was patched a
    moment ago), and otherwise the lower neighbour the dictionary had at the
    start of the iteration. *)
Theorem pass_propagates_left_to_right (leds : gmap Z led) (total id : Z)
    (pre post : list Z) :
  find_missing_ids leds total = pre ++ id :: post →
  ∃ mid patched,
    for_missing pre leds 0 = Ok (mid, patched) ∧
    find_nearest_next_led mid id = find_nearest_next_led leds id ∧
    find_nearest_prev_led mid id =
      if bool_decide (id - 1 ∈ interior_gaps leds total) then Some (id - 1)
      else find_nearest_prev_led leds id.
Proof.
  intros Hsplit.
  destruct (mid_pass leds total pre post id Hsplit) as (mid & Hrun & Hkeys).
  eexists mid, _. split; [done|].
  assert (gap leds total id) as [Hid Hnone].
  { apply elem_of_find_missing_ids. rewrite Hsplit, elem_of_app.
    right. left. }
  assert (∀ k, present leds k → present mid k) as Hsub
    by (intros k Hk; apply Hkeys; by left).
  split.
  - apply option_eq_Some. intros k.
    rewrite !find_nearest_next_led_Some. apply min_above_agree.
    intros k' Hlt. rewrite Hkeys. split; [|by left].
    intros [?|(? & _)]; [done|lia].
  - case_bool_decide as Hprev.
    + apply elem_of_interior_gaps in Hprev as [Hgap Hb].
      apply find_nearest_prev_led_Some. split_and!; [|lia|intros; lia].
      apply Hkeys. right. split_and!; [lia|done..].
    + assert (∀ k, max_below mid id k → max_below leds id k) as Hdown.
      { intros k (Hk & Hlt & Hmax).
        apply Hkeys in Hk as [Hk|(_ & [Hrange Hknone] & Hb)].
        { split_and!; [done..|]. intros k' Hk' Hlt'.
          apply Hmax; [by apply Hsub|done]. }
        exfalso.
        assert (k + 1 < id) as Hlt1.
        { destruct (decide (k = id - 1)) as [->|]; [|lia].
          exfalso. apply Hprev, elem_of_interior_gaps. by split. }
        assert (present mid (k + 1)) as Hnext; [|specialize (Hmax _ Hnext); lia].
        destruct (leds !! (k + 1)) as [l|] eqn:Hl;
          [apply Hsub; by exists l|].
        apply Hkeys. right. split_and!; [done| |].
        - split; [lia|done].
        - destruct Hb as [(k1 & Hk1 & Hlt1') (k2 & Hk2 & Hlt2)]. split.
          + exists k1. split; [done|lia].
          + exists k2. split; [done|].
            assert (k2 ≠ k + 1) by (intros ->; destruct Hk2; congruence).
            lia. }
      apply option_eq_Some. intros k.
      rewrite !find_nearest_prev_led_Some. split; [apply Hdown|].
      intros Hk.
      assert (has_below mid id) as Hhas.
      { destruct Hk as (Hk & Hlt & _). exists k. split; [by apply Hsub|done]. }
      apply find_nearest_prev_led_is_Some in Hhas as [k0 Hk0].
      apply find_nearest_prev_led_sound in Hk0.
      by rewrite (max_below_unique leds id k k0 Hk (Hdown _ Hk0)).
Qed.

Lemma pass_propagates_left_to_right_witness :
  find_missing_ids (load_leds_from_csv rows_0_5) 6 = [1] ++ 2 :: [3; 4] ∧
  ∃ mid patched,
    for_missing [1] (load_leds_from_csv rows_0_5) 0 = Ok (mid, patched) ∧
    find_nearest_next_led mid 2
    = find_nearest_next_led (load_leds_from_csv rows_0_5) 2 ∧
    find_nearest_prev_led mid 2 =
      if bool_decide (2 - 1 ∈ interior_gaps (load_leds_from_csv rows_0_5) 6)
      then Some (2 - 1)
      else find_nearest_prev_led (load_leds_from_csv rows_0_5) 2.
Proof.
  assert (find_missing_ids (load_leds_from_csv rows_0_5) 6
          = [1] ++ 2 :: [3; 4]) as Hsplit by (by vm_compute).
  split; [done|].
  exact (pass_propagates_left_to_right (load_leds_from_csv rows_0_5) 6 2
           [1] [3; 4] Hsplit).
Defined.

(** ** A single missing LED *)

(** X19.  An id whose two immediate neighbours [id - 1] and [id + 1] are
    present is given the weight [0.5] exactly: the body of the [for] loop
    stores, for each coordinate, half of the lower neighbour's value plus
    half of the upper neighbour's, with [xn], [yn], [zn] and [error] zero,
    and counts one patched LED. *)
Theorem single_gap_midpoint (leds : gmap Z led) (patched id : Z)
    (prev_led next_led : led) :
  leds !! (id - 1) = Some prev_led →
  leds !! (id + 1) = Some next_led →
  find_nearest_prev_led leds id = Some (id - 1) ∧
  find_nearest_next_led leds id = Some (id + 1) ∧
  patch_one leds patched id =
    Ok (<[id := {| led_x := (led_x prev_led * 0.5 + led_x next_led * 0.5)
                            %float;
                   led_y := (led_y prev_led * 0.5 + led_y next_led * 0.5)
                            %float;
                   led_z := (led_z prev_led * 0.5 + led_z next_led * 0.5)
                            %float;
                   led_xn := 0%float;
                   led_yn := 0%float;
                   led_zn := 0%float;
                   led_error := 0%float |}]> leds,
        patched + 1).
Proof.
  intros Hp Hn.
  assert (find_nearest_prev_led leds id = Some (id - 1)) as Hprev.
  { apply find_nearest_prev_led_Some.
    split_and!; [by exists prev_led|lia|intros; lia]. }
  assert (find_nearest_next_led leds id = Some (id + 1)) as Hnext.
  { apply find_nearest_next_led_Some.
    split_and!; [by exists next_led|lia|intros; lia]. }
  split_and!; [done..|].
  unfold patch_one. rewrite Hprev, Hnext.
  rewrite (interpolate_led_ok leds id (id - 1) (id + 1) prev_led next_led)
    by (done || lia).
  replace (id - (id - 1)) with 1 by lia.
  replace (id + 1 - (id - 1)) with 2 by lia.
  done.
Qed.

Lemma single_gap_midpoint_witness :
  (load_leds_from_csv rows_2_4 !! (3 - 1) = Some (Led 1 1 1 0 0 0 0) ∧
   load_leds_from_csv rows_2_4 !! (3 + 1) = Some (Led 3 3 3 0 0 0 0)) ∧
  find_nearest_prev_led (load_leds_from_csv rows_2_4) 3 = Some (3 - 1) ∧
  find_nearest_next_led (load_leds_from_csv rows_2_4) 3 = Some (3 + 1) ∧
  patch_one (load_leds_from_csv rows_2_4) 0 3 =
    Ok (<[3 := {| led_x := (1 * 0.5 + 3 * 0.5)%float;
                  led_y := (1 * 0.5 + 3 * 0.5)%float;
                  led_z := (1 * 0.5 + 3 * 0.5)%float;
                  led_xn := 0%float;
                  led_yn := 0%float;
                  led_zn := 0%float;
                  led_error := 0%float |}]> (load_leds_from_csv rows_2_4),
        0 + 1).
Proof.
  assert (load_leds_from_csv rows_2_4 !! (3 - 1) = Some (Led 1 1 1 0 0 0 0))
    as Hp by (by vm_compute).
  assert (load_leds_from_csv rows_2_4 !! (3 + 1) = Some (Led 3 3 3 0 0 0 0))
    as Hn by (by vm_compute).
  split; [done|].
  exact (single_gap_midpoint (load_leds_from_csv rows_2_4) 0 3 _ _ Hp Hn).
Defined.
